(** * A shallow embedding of [src/converter.py] (NIfTI volume to MIP images)

    Intensities are modelled as exact rationals [Q] (the data model speaks of
    real-valued intensities); numpy arrays as nested lists, row-major;
    PIL images as a width, a height and rows of 8-bit pixels. *)

From Stdlib Require Import String Ascii ZArith QArith Qround List Bool Lia.
From Stdlib Require Import Sorting.Mergesort Sorting.Sorted Orders Permutation.
From Stdlib Require Import Qfield Lqa.
Import ListNotations.

Open Scope string_scope.

(* ------------------------------------------------------------------ *)
(** ** numpy arrays *)

(** Element-wise binary operation on two lists (numpy broadcasting of
    equally shaped operands). *)
Fixpoint map2 {A B C : Type} (f : A -> B -> C) (l1 : list A) (l2 : list B)
  : list C :=
  match l1, l2 with
  | x :: t1, y :: t2 => f x y :: map2 f t1 t2
  | _, _ => []
  end.

(** [np.maximum] on two scalars. *)
Definition qmax (a b : Q) : Q := if Qle_bool a b then b else a.

(** [np.minimum] on two scalars. *)
Definition qmin (a b : Q) : Q := if Qle_bool a b then a else b.

(** A 2-D and a 3-D array of intensities. *)
Definition arr2 := list (list Q).
Definition arr3 := list (list (list Q)).

Definition get2 (a : arr2) (i j : nat) : Q := nth j (nth i a []) 0.
Definition get3 (v : arr3) (i j k : nat) : Q := nth k (nth j (nth i v []) []) 0.

(** A 2-D array of shape [(r, c)]. *)
Definition shape2b (a : arr2) (r c : nat) : bool :=
  Nat.eqb (length a) r && forallb (fun row => Nat.eqb (length row) c) a.

(** A 3-D array of shape [(x, y, z)]. *)
Definition shape3b (v : arr3) (x y z : nat) : bool :=
  Nat.eqb (length v) x && forallb (fun pl => shape2b pl y z) v.

(** Maximum reduction of a non-empty list, as numpy's reduction does it. *)
Definition list_max (l : list Q) : Q := fold_left qmax (tl l) (hd 0 l).
Definition list_min (l : list Q) : Q := fold_left qmin (tl l) (hd 0 l).

(** [a.max()] and [a.min()] of a 2-D array: reductions over all elements. *)
Definition amax_all (a : arr2) : Q := list_max (concat a).
Definition amin_all (a : arr2) : Q := list_min (concat a).

(** ** [get_image_slices_data]: [np.amax(image_data, axis)] for the
    three axes of a 3-D array. *)

(** [np.amax(v, 0)]: element-wise maximum of the 2-D slices [v[i]]. *)
Definition amax_axis0 (v : arr3) : arr2 :=
  fold_left (map2 (map2 qmax)) (tl v) (hd [] v).

(** [np.amax(v, 1)]: for each [i], element-wise maximum of the rows [v[i][j]]. *)
Definition amax_axis1 (v : arr3) : arr2 :=
  map (fun pl => fold_left (map2 qmax) (tl pl) (hd [] pl)) v.

(** [np.amax(v, 2)]: for each [i, j], the maximum of the row [v[i][j]]. *)
Definition amax_axis2 (v : arr3) : arr2 :=
  map (map list_max) v.

Definition get_image_slices_data (image_data : arr3) : arr2 * arr2 * arr2 :=
  let sagittal := amax_axis0 image_data in
  let coronal := amax_axis1 image_data in
  let axial := amax_axis2 image_data in
  (sagittal, coronal, axial).

(** [m] is the maximum of [f i] over the indices [i] with [P i]. *)
Definition is_max_over (m : Q) (P : nat -> Prop) (f : nat -> Q) : Prop :=
  (forall i, P i -> f i <= m) /\ (exists i, P i /\ f i = m).

(* ------------------------------------------------------------------ *)
(** ** Exceptions, logging and the in-place array store *)

(** Python exceptions the converter can see: [ValueError] and any other
    [Exception] subclass (e.g. [IndexError]). *)
Inductive exn :=
| ValueError (msg : string)
| OtherError (msg : string).

Inductive level := INFO | ERROR.
Definition log_entry := (level * string)%type.

(** A numpy array object: its contents and its [flags.writeable]. *)
Record ndarray := mk_ndarray { nd_data : arr2; nd_writeable : bool }.

(** Computations that read and update one numpy array in place and may
    raise. *)
Definition NP (A : Type) := ndarray -> (A + exn) * ndarray.

Definition np_ret {A} (x : A) : NP A := fun s => (inl x, s).

Definition np_bind {A B} (m : NP A) (k : A -> NP B) : NP B :=
  fun s => match m s with
           | (inl x, s') => k x s'
           | (inr e, s') => (inr e, s')
           end.

Notation "x <- m ;; k" := (np_bind m (fun x => k))
  (at level 61, m at next level, right associativity).

(* ------------------------------------------------------------------ *)
(** ** [np.percentile] (default [method='linear']) *)

Module QLeb <: TotalLeBool'.
Definition t := Q.
Definition leb := Qle_bool.
Theorem leb_total : forall a b, leb a b = true \/ leb b a = true.
Proof.
  intros a b; unfold leb; destruct (Qlt_le_dec a b) as [H|H].
  - left; apply Qle_bool_iff; apply Qlt_le_weak; exact H.
  - right; apply Qle_bool_iff; exact H.
Qed.
End QLeb.

Module QSort := Sort QLeb.

Definition qltb (a b : Q) : bool := negb (Qle_bool b a).

(** Linear interpolation at the virtual index [q/100 * (n-1)] of the sorted
    values: [previous + gamma * (next - previous)], the index of [next]
    clipped to the last element. *)
Definition percentile_sorted (s : list Q) (q : Q) : Q :=
  let n := length s in
  let vi := q / 100 * inject_Z (Z.of_nat n - 1) in
  let lo := Z.to_nat (Qfloor vi) in
  let hi := Nat.min (S lo) (n - 1) in
  let gamma := vi - inject_Z (Qfloor vi) in
  let below := nth lo s 0 in
  let above := nth hi s 0 in
  below + gamma * (above - below).

(** [np.percentile(a, q)] over all elements of a 2-D array: [ValueError]
    for [q] outside [[0, 100]], [IndexError] on an empty array. *)
Definition percentile (a : arr2) (q : Q) : Q + exn :=
  if Qle_bool 0 q && Qle_bool q 100 then
    match concat a with
    | [] => inr (OtherError "index -1 is out of bounds for axis 0 with size 0")
    | l => inl (percentile_sorted (QSort.sort l) q)
    end
  else inr (ValueError "Percentiles must be in the range [0, 100]").

(** [np.percentile(image_data, q)] on the array object. *)
Definition np_percentile (q : Q) : NP Q := fun s => (percentile (nd_data s) q, s).

(** [image_data[mask] = v], the mask computed on the current contents;
    a read-only array raises before any element is written. *)
Definition setitem_where (mask : Q -> bool) (v : Q) : NP unit :=
  fun s =>
    if nd_writeable s then
      (inl tt, mk_ndarray (map (map (fun e => if mask e then v else e)) (nd_data s)) true)
    else (inr (ValueError "assignment destination is read-only"), s).

(* ------------------------------------------------------------------ *)
(** ** [set_min_max_threshold_value] *)

(** The body of the [try] block. *)
Definition clip_body (threshold_percentile : Q) : NP unit :=
  max_threshold_value <- np_percentile threshold_percentile ;;
  min_threshold_value <- np_percentile (100 - threshold_percentile) ;;
  _ <- setitem_where (fun e => qltb e min_threshold_value) min_threshold_value ;;
  setitem_where (fun e => qltb max_threshold_value e) max_threshold_value.

Definition msg_threshold := "Geeting the threshold value for the NIfTi file.".
Definition msg_percentile_range := "Percentiles must be in the range [0, 100]".
Definition msg_threshold_failed := "Unable to determine the threshold percentile. Details: ".

(** The [try]/[except ValueError]/[except Exception] around the body; the
    (possibly updated) array object is returned in every case. *)
Definition set_min_max_threshold_value (image_data : ndarray)
    (threshold_percentile : Q) : ndarray * list log_entry :=
  let info := (INFO, msg_threshold) in
  match clip_body threshold_percentile image_data with
  | (inl _, a) => (a, [info])
  | (inr (ValueError _), a) => (a, [info; (ERROR, msg_percentile_range)])
  | (inr (OtherError d), a) => (a, [info; (ERROR, msg_threshold_failed ++ d)])
  end.

(* ------------------------------------------------------------------ *)
(** ** [scale_image_data] *)

(** A float64 value: finite, NaN or an infinity. *)
Inductive fval := Fin (q : Q) | NaN | PosInf | NegInf.

(** numpy true division of float64 arrays: division by zero gives NaN or an
    infinity with a [RuntimeWarning], never an exception. *)
Definition np_div (a b : Q) : fval :=
  if Qeq_bool b 0 then
    (if Qeq_bool a 0 then NaN else if Qle_bool 0 a then PosInf else NegInf)
  else Fin (a / b).

(** [astype(np.uint8)] of one float64: truncation toward zero for a value
    in [[0, 256)]; for NaN, an infinity or a value out of range the result
    is not defined by numpy (platform dependent), modelled as [None]. *)
Definition astype_uint8 (v : fval) : option Z :=
  match v with
  | Fin q => if Qle_bool 0 q && qltb q 256 then Some (Qfloor q) else None
  | _ => None
  end.

(** [(image_data - image_data.min()) * 255 / (image_data.max() - image_data.min())] *)
Definition scale_float (image_data : arr2) : list (list fval) :=
  let mn := amin_all image_data in
  let mx := amax_all image_data in
  map (map (fun x => np_div ((x - mn) * 255) (mx - mn))) image_data.

(** The returned [uint8] array. *)
Definition scale_values (image_data : arr2) : list (list (option Z)) :=
  map (map astype_uint8) (scale_float image_data).

Definition msg_scaling := "Scaling the image data...".

Definition scale_image_data (image_data : arr2)
    : list (list (option Z)) * list log_entry :=
  (scale_values image_data, [(INFO, msg_scaling)]).

(* ------------------------------------------------------------------ *)
(** ** PIL images *)

(** A mode ["L"] image: width, height and rows of pixels ([None]: a pixel
    whose value numpy left undefined). *)
Record image := mk_image {
  im_w : nat;
  im_h : nat;
  im_px : list (list (option Z))
}.

Definition pixel (img : image) (x y : nat) : option Z :=
  nth x (nth y (im_px img) []) None.

(** [PIL.Image.fromarray] of a 2-D [uint8] array of shape [(rows, cols)]:
    width [cols], height [rows]. *)
Definition fromarray (a : list (list (option Z))) : image :=
  mk_image (length (hd [] a)) (length a) a.

(** [ImageOps.invert] on mode ["L"]: the lookup table [255 - i]. *)
Definition invert (img : image) : image :=
  mk_image (im_w img) (im_h img)
    (map (map (option_map (fun v => 255 - v)%Z)) (im_px img)).

(** [img.rotate(90)] (no [expand], no [center]): the affine transform
    about the centre [(w/2, h/2)] with matrix [[0, -1, w/2 + h/2, 1, 0,
    h/2 - w/2]], sampled at pixel centres with nearest neighbour into an
    image of the SAME size [(w, h)], pixels falling outside the source
    filled with 0. *)
Definition rotate_src (img : image) (x y : nat) : option Z :=
  let w := Z.of_nat (im_w img) in
  let h := Z.of_nat (im_h img) in
  let xin := ((w + h - 2 * Z.of_nat y - 1) / 2)%Z in
  let yin := ((h - w + 2 * Z.of_nat x + 1) / 2)%Z in
  if (0 <=? xin)%Z && (xin <? w)%Z && (0 <=? yin)%Z && (yin <? h)%Z
  then pixel img (Z.to_nat xin) (Z.to_nat yin)
  else Some 0%Z.

Definition rotate90 (img : image) : image :=
  mk_image (im_w img) (im_h img)
    (map (fun y => map (fun x => rotate_src img x y) (seq 0 (im_w img)))
         (seq 0 (im_h img))).

(* ------------------------------------------------------------------ *)
(** ** [process_mips] *)

Definition msg_inverting := "Inverting the image....".
Definition msg_resizing := "Resizing the image....".

Definition process_mips (image_data : ndarray) (threshold_percentile : Q)
    (invert_image : bool) : image * list log_entry :=
  let (updated_image_data, log1) :=
    set_min_max_threshold_value image_data threshold_percentile in
  let (scaled, log2) := scale_image_data (nd_data updated_image_data) in
  let img := fromarray scaled in
  let (img, log3) :=
    if invert_image then (invert img, [(INFO, msg_inverting)]) else (img, []) in
  (rotate90 img, (log1 ++ log2 ++ log3 ++ [(INFO, msg_resizing)])%list).

(** The renderer as the specification words it: clip, scale, convert,
    invert when asked, then a 90-degree counter-clockwise rotation, which
    turns a [w x h] image into an [h x w] one. *)
Definition rot90_ccw (img : image) : image :=
  mk_image (im_h img) (im_w img)
    (map (fun y => map (fun x => pixel img (im_w img - 1 - y) x) (seq 0 (im_h img)))
         (seq 0 (im_w img))).

Definition render_spec (image_data : ndarray) (threshold_percentile : Q)
    (invert_image : bool) : image :=
  let updated := fst (set_min_max_threshold_value image_data threshold_percentile) in
  let img := fromarray (scale_values (nd_data updated)) in
  rot90_ccw (if invert_image then invert img else img).

(* ------------------------------------------------------------------ *)
(** ** Output file names *)

(** [s.split(sep)] for a non-empty [sep]: scan left to right, cutting at
    each occurrence of [sep] ([fuel] bounds the number of steps). *)
Fixpoint split_go (fuel : nat) (sep s cur : string) : list string :=
  match fuel with
  | O => [cur ++ s]
  | S f =>
      match s with
      | EmptyString => [cur]
      | String c s' =>
          if prefix sep s
          then cur :: split_go f sep (substring (String.length sep) (String.length s - String.length sep) s) ""
          else split_go f sep s' (cur ++ String c "")
      end
  end.

Definition py_split (s sep : string) : list string :=
  split_go (S (String.length s)) sep s "".

(** [filename.split(".nii")[0] + "_" + file_type] *)
Definition create_mips_file_name (filename file_type : string) : string :=
  let output_string := hd "" (py_split filename ".nii") in
  output_string ++ "_" ++ file_type.

Definition ends_with_slash (a : string) : bool :=
  match get (String.length a - 1) a with
  | Some c => Ascii.eqb c "/"%char
  | None => false
  end.

(** [os.path.join(a, b)] (posixpath) for two components. *)
Definition path_join (a b : string) : string :=
  if prefix "/" b then b
  else if String.eqb a "" || ends_with_slash a then a ++ b
  else a ++ "/" ++ b.

(** [sep] occurs in [s] starting at position [i]. *)
Definition occurs_at (sep s : string) (i : nat) : bool :=
  prefix sep (substring i (String.length s - i) s).

(* ------------------------------------------------------------------ *)
(** ** [check_nifti_dimension] and [main] *)

(** The entries of a [shape] tuple: Python [int]s or anything else. *)
Inductive pyval := PyInt (z : Z) | PyOther.

Definition is_int (v : pyval) : bool :=
  match v with PyInt _ => true | PyOther => false end.

(** [all(isinstance(v, int) for v in shape) and len(shape) == 3] *)
Definition check_nifti_dimension (nifti_image_shape : list pyval) : bool :=
  forallb is_int nifti_image_shape && Nat.eqb (length nifti_image_shape) 3.

(** A loaded NIfTI image: its [shape]; the array [get_fdata()] returns,
    and the exception it raises instead when the data block cannot be
    read (e.g. a truncated file), [None] when it reads. *)
Record nifti := mk_nifti {
  nifti_shape : list pyval;
  nifti_fdata : arr3;
  nifti_fdata_error : option string
}.

(** The outcome of [nib.load(filepath)] when it raises: an
    [ImageFileError] (caught by [main]) or any other exception, such as
    [FileNotFoundError] for a missing file (not caught). *)
Inductive load_error :=
| ImageFileError (detail : string)
| OtherLoadError (detail : string).

(** [np.amax(v, axis)] raises [ValueError] when the reduced axis has
    length 0 (a maximum has no identity). *)
Definition msg_amax_empty :=
  "zero-size array to reduction operation maximum which has no identity".

(** The length of axis [0], [1] or [2] of a 3-D array (read at index 0
    of the axes before it). *)
Definition axis_len (v : arr3) (axis : nat) : nat :=
  match axis with
  | O => length v
  | S O => length (hd [] v)
  | _ => length (hd [] (hd [] v))
  end.

Definition np_amax3 (v : arr3) (axis : nat) : arr2 + exn :=
  if Nat.eqb (axis_len v axis) 0 then inr (ValueError msg_amax_empty)
  else inl (match axis with
            | O => amax_axis0 v
            | S O => amax_axis1 v
            | _ => amax_axis2 v
            end).

(** [get_image_slices_data] with the exceptions of its three [np.amax]
    calls, made in order; when none raises, the result is
    [get_image_slices_data]. *)
Definition get_image_slices_data_np (image_data : arr3) : (arr2 * arr2 * arr2) + exn :=
  match np_amax3 image_data 0 with
  | inr e => inr e
  | inl sagittal =>
      match np_amax3 image_data 1 with
      | inr e => inr e
      | inl coronal =>
          match np_amax3 image_data 2 with
          | inr e => inr e
          | inl axial => inl (sagittal, coronal, axial)
          end
      end
  end.

Definition exn_message (e : exn) : string :=
  match e with ValueError m => m | OtherError m => m end.

(** What [main] does, in order: log lines, PNG files written, the
    [os.sys.exit] status, and an exception that escapes [main] (the run
    ends with a traceback). *)
Inductive event :=
| Log (e : log_entry)
| Saved (path : string) (img : image)
| Exit (code : Z)
| Crash (msg : string).

Definition msg_export := "Exporting images as PNG format...".
Definition msg_success := "Succesfully converted image into MIPS...".
Definition msg_not_3d := "Required 3D nifit image to be converted to a MIPS format.".
Definition msg_exiting := "Exiting....".

(** The three [save] calls in one [try]: the first failing one aborts the
    rest, with [exit(1)]. [save_ok path] is whether the file system
    accepts the write. *)
Fixpoint save_all (save_ok : string -> bool) (items : list (string * image))
  : list event :=
  match items with
  | [] => [Log (INFO, msg_success)]
  | (path, img) :: rest =>
      if save_ok path then Saved path img :: save_all save_ok rest
      else [Log (ERROR, "Unable to save the image. Detail: " ++ path); Exit 1%Z]
  end.

(** [main(output_folder, filepath, filename, threshold_percentile,
    invert_image)]; [load] is the outcome of [nib.load(filepath)]: the
    image, or the exception it raises. *)
Definition main (output_folder filepath filename : string)
    (threshold_percentile : Q) (invert_image : bool)
    (load : nifti + load_error) (save_ok : string -> bool) : list event :=
  Log (INFO, "Loading nifti file - " ++ filepath) ::
  match load with
  | inr (ImageFileError detail) => [Log (ERROR, "Error occured. Detail: " ++ detail); Exit 1%Z]
  | inr (OtherLoadError detail) => [Crash detail]
  | inl nifti_file =>
      if check_nifti_dimension (nifti_shape nifti_file) then
        match nifti_fdata_error nifti_file with
        | Some detail => [Crash detail]
        | None =>
        let image_data := nifti_fdata nifti_file in
        match get_image_slices_data_np image_data with
        | inr e => [Crash (exn_message e)]
        | inl (sagittal, coronal, axial) =>
        let (sagittal, l1) := process_mips (mk_ndarray sagittal true) threshold_percentile invert_image in
        let (coronal, l2) := process_mips (mk_ndarray coronal true) threshold_percentile invert_image in
        let (axial, l3) := process_mips (mk_ndarray axial true) threshold_percentile invert_image in
        (map Log (l1 ++ l2 ++ l3) ++
         Log (INFO, msg_export) ::
         save_all save_ok
           [(path_join output_folder (create_mips_file_name filename "MIPs_sag.png"), sagittal);
            (path_join output_folder (create_mips_file_name filename "MIPs_cor.png"), coronal);
            (path_join output_folder (create_mips_file_name filename "MIPs_ax.png"), axial)])%list
        end
        end
      else
        [Log (ERROR, msg_not_3d); Log (INFO, msg_exiting); Exit 1%Z]
  end.

(** The paths of the files written by a run. *)
Fixpoint saved_paths (tr : list event) : list string :=
  match tr with
  | [] => []
  | Saved p _ :: t => p :: saved_paths t
  | _ :: t => saved_paths t
  end.

(** The three output paths [main] writes, in order. *)
Definition mips_paths (output_folder filename : string) : list string :=
  [path_join output_folder (create_mips_file_name filename "MIPs_sag.png");
   path_join output_folder (create_mips_file_name filename "MIPs_cor.png");
   path_join output_folder (create_mips_file_name filename "MIPs_ax.png")].

(** The longest prefix of [ps] accepted by [ok]. *)
Fixpoint take_ok (ok : string -> bool) (ps : list string) : list string :=
  match ps with
  | [] => []
  | p :: t => if ok p then p :: take_ok ok t else []
  end.

(** The files written by a run, with their images. *)
Fixpoint saved_items (tr : list event) : list (string * image) :=
  match tr with
  | [] => []
  | Saved p img :: t => (p, img) :: saved_items t
  | _ :: t => saved_items t
  end.

(* ------------------------------------------------------------------ *)
(** ** Auxiliary definitions for the proofs *)

(** One element of the scaled array. *)
Definition scale_value (mn mx x : Q) : option Z :=
  astype_uint8 (np_div ((x - mn) * 255) (mx - mn)).

(** The scaled value before the cast. *)
Definition scale_ratio (mn mx x : Q) : Q := (x - mn) * 255 / (mx - mn).

Definition qle_rel (x y : Q) : Prop := is_true (QLeb.leb x y).

(** The linear interpolation of [percentile_sorted] at virtual index [v]. *)
Definition interp (s : list Q) (v : Q) : Q :=
  let lo := Z.to_nat (Qfloor v) in
  let hi := Nat.min (S lo) (length s - 1) in
  nth lo s 0 + (v - inject_Z (Qfloor v)) * (nth hi s 0 - nth lo s 0).

(** The two masked assignments, one after the other, on one element. *)
Definition clip_then (low high e : Q) : Q :=
  let e1 := if qltb e low then low else e in
  if qltb high e1 then high else e1.

(* ================================================================== *)
(** * Lemmas *)

Lemma qmax_ge_l a b : a <= qmax a b.
Proof.
  unfold qmax; destruct (Qle_bool a b) eqn:E.
  - apply Qle_bool_iff; exact E.
  - apply Qle_refl.
Qed.

Lemma qmax_ge_r a b : b <= qmax a b.
Proof.
  unfold qmax; destruct (Qle_bool a b) eqn:E.
  - apply Qle_refl.
  - apply Qlt_le_weak, Qnot_le_lt; intro H; apply Qle_bool_iff in H; congruence.
Qed.

Lemma qmax_cases a b : qmax a b = a \/ qmax a b = b.
Proof. unfold qmax; destruct (Qle_bool a b); auto. Qed.

(** The running maximum of a fold: above the seed and every element, and
    equal to one of them. *)
Lemma fold_qmax_spec : forall l a,
  a <= fold_left qmax l a /\
  (forall x, In x l -> x <= fold_left qmax l a) /\
  (fold_left qmax l a = a \/ In (fold_left qmax l a) l).
Proof.
  induction l as [|y l IH]; intros a; simpl.
  - split; [apply Qle_refl|split; [tauto|auto]].
  - destruct (IH (qmax a y)) as (H1 & H2 & H3).
    split; [|split].
    + eapply Qle_trans; [apply qmax_ge_l|exact H1].
    + intros x [<-|Hx]; [|auto].
      eapply Qle_trans; [apply qmax_ge_r|exact H1].
    + destruct H3 as [H3|H3]; [|auto].
      rewrite H3; destruct (qmax_cases a y) as [E|E]; rewrite E; auto.
Qed.

Lemma list_max_is_max (l : list Q) :
  l <> [] ->
  is_max_over (list_max l) (fun k => (k < length l)%nat) (fun k => nth k l 0).
Proof.
  intros Hl; destruct l as [|a t]; [congruence|].
  unfold list_max; simpl.
  destruct (fold_qmax_spec t a) as (H1 & H2 & H3).
  split.
  - intros [|k] Hk; simpl; [exact H1|].
    apply H2, nth_In; simpl in Hk; lia.
  - destruct H3 as [H3|H3].
    + exists 0%nat; simpl; split; [lia|auto].
    + apply In_nth with (d := 0) in H3; destruct H3 as (k & Hk & Ek).
      exists (S k); simpl; split; [lia|exact Ek].
Qed.

Lemma length_map2 {A B C} (f : A -> B -> C) : forall l1 l2,
  length (map2 f l1 l2) = Nat.min (length l1) (length l2).
Proof. induction l1 as [|x l1 IH]; intros [|y l2]; simpl; auto. Qed.

Lemma nth_map2 {A} (f : A -> A -> A) (d : A) : forall k l1 l2,
  (k < length l1)%nat -> (k < length l2)%nat ->
  nth k (map2 f l1 l2) d = f (nth k l1 d) (nth k l2 d).
Proof.
  induction k as [|k IH]; intros [|x l1] [|y l2] H1 H2; simpl in *; try lia; auto.
  apply IH; lia.
Qed.

(** Element-wise folding of equally long rows: the result has the common
    length, and its [k]-th element folds the [k]-th elements. *)
Lemma fold_map2_spec {A} (op : A -> A -> A) (d : A) (n : nat) : forall rows r0,
  length r0 = n -> Forall (fun r => length r = n) rows ->
  length (fold_left (map2 op) rows r0) = n /\
  (forall k, (k < n)%nat ->
     nth k (fold_left (map2 op) rows r0) d
     = fold_left op (map (fun r => nth k r d) rows) (nth k r0 d)).
Proof.
  induction rows as [|r rows IH]; intros r0 H0 Hr; simpl.
  - split; auto.
  - inversion Hr as [|? ? Hr1 Hr2]; subst.
    destruct (IH (map2 op r0 r)) as [IH1 IH2]; auto.
    { rewrite length_map2; lia. }
    split; auto.
    intros k Hk; rewrite IH2 by exact Hk.
    rewrite nth_map2 by lia; reflexivity.
Qed.

Lemma shape2b_spec (a : arr2) r c :
  shape2b a r c = true <-> length a = r /\ Forall (fun row => length row = c) a.
Proof.
  unfold shape2b; rewrite andb_true_iff, Nat.eqb_eq, forallb_forall, Forall_forall.
  split; intros [H1 H2]; split; auto; intros x Hx; apply Nat.eqb_eq; auto.
Qed.

Lemma shape3b_spec (v : arr3) x y z :
  shape3b v x y z = true <->
  length v = x /\ Forall (fun pl => length pl = y /\ Forall (fun r => length r = z) pl) v.
Proof.
  unfold shape3b; rewrite andb_true_iff, Nat.eqb_eq, forallb_forall, Forall_forall.
  split; intros [H1 H2]; split; auto; intros pl Hpl.
  - apply shape2b_spec; auto.
  - apply shape2b_spec; auto.
Qed.

Lemma Forall_nth_len {A} (P : A -> Prop) (l : list A) d :
  Forall P l <-> (forall i, (i < length l)%nat -> P (nth i l d)).
Proof.
  rewrite Forall_forall; split.
  - intros H i Hi; apply H, nth_In; exact Hi.
  - intros H x Hx; apply In_nth with (d := d) in Hx.
    destruct Hx as (i & Hi & <-); auto.
Qed.

Lemma nth_map_lt {A B} (f : A -> B) (l : list A) i (d : A) (d' : B) :
  (i < length l)%nat -> nth i (map f l) d' = f (nth i l d).
Proof.
  intros Hi; rewrite nth_indep with (d' := f d) by (rewrite length_map; exact Hi).
  apply map_nth.
Qed.

Lemma list_max_cons_map {A} (g : A -> Q) x t :
  list_max (map g (x :: t)) = fold_left qmax (map g t) (g x).
Proof. reflexivity. Qed.

Section Projections.
Variables (v : arr3) (X Y Z : nat).
Hypotheses (HX : (0 < X)%nat) (HY : (0 < Y)%nat) (HZ : (0 < Z)%nat).
Hypothesis Hshape : shape3b v X Y Z = true.

Let Hlen : length v = X.
Proof. apply shape3b_spec in Hshape; tauto. Qed.

Let Hpl : forall i, (i < X)%nat -> length (nth i v []) = Y.
Proof.
  intros i Hi; apply shape3b_spec in Hshape; destruct Hshape as [H1 H2].
  rewrite (Forall_nth_len _ _ []) in H2; apply H2; lia.
Qed.

Let Hrow : forall i j, (i < X)%nat -> (j < Y)%nat ->
  length (nth j (nth i v []) []) = Z.
Proof.
  intros i j Hi Hj; apply shape3b_spec in Hshape; destruct Hshape as [H1 H2].
  rewrite (Forall_nth_len _ _ []) in H2; destruct (H2 i) as [H3 H4]; [lia|].
  rewrite (Forall_nth_len _ _ []) in H4; apply H4; lia.
Qed.

Lemma amax_axis2_spec :
  shape2b (amax_axis2 v) X Y = true /\
  (forall i j, (i < X)%nat -> (j < Y)%nat ->
     is_max_over (get2 (amax_axis2 v) i j) (fun k => (k < Z)%nat)
                 (fun k => get3 v i j k)).
Proof.
  split.
  - apply shape2b_spec; unfold amax_axis2; rewrite length_map; split; [exact Hlen|].
    apply (Forall_nth_len _ _ []); rewrite length_map; intros i Hi.
    rewrite (nth_map_lt _ _ _ []) by exact Hi; rewrite length_map; apply Hpl; lia.
  - intros i j Hi Hj; unfold get2, get3, amax_axis2.
    rewrite (nth_map_lt _ _ _ []) by lia.
    rewrite (nth_map_lt _ _ _ []) by (rewrite Hpl; lia).
    rewrite <- (Hrow i j Hi Hj); apply list_max_is_max.
    intros E; pose proof (Hrow i j Hi Hj) as R; rewrite E in R; simpl in R; lia.
Qed.

Lemma amax_axis1_spec :
  shape2b (amax_axis1 v) X Z = true /\
  (forall i k, (i < X)%nat -> (k < Z)%nat ->
     is_max_over (get2 (amax_axis1 v) i k) (fun j => (j < Y)%nat)
                 (fun j => get3 v i j k)).
Proof.
  assert (Hpl' : forall i, (i < X)%nat -> exists r0 rows,
    nth i v [] = r0 :: rows /\ length r0 = Z /\ Forall (fun r => length r = Z) rows).
  { intros i Hi; destruct (nth i v []) as [|r0 rows] eqn:E.
    - pose proof (Hpl i Hi) as P; rewrite E in P; simpl in P; lia.
    - exists r0, rows; split; [reflexivity|split].
      + pose proof (Hrow i 0 Hi HY) as R; rewrite E in R; exact R.
      + apply (Forall_nth_len _ _ []); intros j Hj.
        pose proof (Hrow i (S j) Hi) as R; rewrite E in R; apply R.
        pose proof (Hpl i Hi) as P; rewrite E in P; simpl in P; lia. }
  split.
  - apply shape2b_spec; unfold amax_axis1; rewrite length_map; split; [exact Hlen|].
    apply (Forall_nth_len _ _ []); rewrite length_map; intros i Hi.
    rewrite (nth_map_lt _ _ _ []) by exact Hi.
    destruct (Hpl' i) as (r0 & rows & E & H0 & Hr); [lia|]; rewrite E; simpl.
    apply (fold_map2_spec qmax 0 Z); auto.
  - intros i k Hi Hk; unfold get2, get3, amax_axis1.
    rewrite (nth_map_lt _ _ _ []) by lia.
    destruct (Hpl' i) as (r0 & rows & E & H0 & Hr); [lia|]; rewrite E; simpl.
    destruct (fold_map2_spec qmax 0 Z rows r0 H0 Hr) as [_ F].
    rewrite F by exact Hk.
    rewrite <- (list_max_cons_map (fun r => nth k r 0)).
    pose proof (Hpl i Hi) as P; rewrite E in P.
    destruct (list_max_is_max (map (fun r => nth k r 0) (r0 :: rows))) as [M1 M2].
    { discriminate. }
    rewrite length_map, P in M1, M2; split.
    + intros j Hj; specialize (M1 j Hj).
      rewrite (nth_map_lt _ _ _ []) in M1 by lia; exact M1.
    + destruct M2 as (j & Hj & Ej); exists j; split; [exact Hj|].
      rewrite (nth_map_lt _ _ _ []) in Ej by lia; exact Ej.
Qed.

Lemma amax_axis0_spec :
  shape2b (amax_axis0 v) Y Z = true /\
  (forall j k, (j < Y)%nat -> (k < Z)%nat ->
     is_max_over (get2 (amax_axis0 v) j k) (fun i => (i < X)%nat)
                 (fun i => get3 v i j k)).
Proof.
  destruct v as [|s0 slices] eqn:Ev; [simpl in Hlen; lia|].
  assert (H0 : length s0 = Y) by (apply (Hpl 0); lia).
  assert (Hs : Forall (fun s => length s = Y) slices).
  { apply (Forall_nth_len _ _ []); intros i Hi.
    apply (Hpl (S i)); simpl in Hlen; lia. }
  destruct (fold_map2_spec (map2 qmax) [] Y slices s0 H0 Hs) as [L F].
  unfold amax_axis0; simpl.
  assert (Hcol : forall j, (j < Y)%nat ->
    length (nth j s0 []) = Z /\
    Forall (fun r => length r = Z) (map (fun s => nth j s []) slices)).
  { intros j Hj; split; [apply (Hrow 0 j); lia|].
    apply (Forall_nth_len _ _ []); rewrite length_map; intros i Hi.
    rewrite (nth_map_lt _ _ _ []) by exact Hi.
    apply (Hrow (S i) j); simpl in Hlen; lia. }
  split.
  - apply shape2b_spec; split; [exact L|].
    apply (Forall_nth_len _ _ []); rewrite L; intros j Hj.
    rewrite F by exact Hj; destruct (Hcol j Hj) as [C1 C2].
    apply (fold_map2_spec qmax 0 Z); auto.
  - intros j k Hj Hk; unfold get2, get3.
    rewrite F by exact Hj; destruct (Hcol j Hj) as [C1 C2].
    destruct (fold_map2_spec qmax 0 Z _ _ C1 C2) as [_ G].
    rewrite G by exact Hk; rewrite map_map.
    rewrite <- (list_max_cons_map (fun s => nth k (nth j s []) 0)).
    destruct (list_max_is_max (map (fun s => nth k (nth j s []) 0) (s0 :: slices)))
      as [M1 M2]; [discriminate|].
    cbv beta in M1, M2; rewrite length_map in M1, M2.
    rewrite Hlen in M1, M2; split.
    + intros i Hi; specialize (M1 i Hi).
      rewrite (nth_map_lt _ _ _ []) in M1 by lia; exact M1.
    + destruct M2 as (i & Hi & Ei); exists i; split; [exact Hi|].
      rewrite (nth_map_lt _ _ _ []) in Ei by lia; exact Ei.
Qed.

End Projections.

Lemma clip_body_error_unchanged (p : Q) (a a' : ndarray) (e : exn) :
  clip_body p a = (inr e, a') -> a' = a.
Proof.
  unfold clip_body, np_bind, np_percentile, setitem_where; simpl.
  destruct (percentile (nd_data a) p) as [hi|e1]; [|congruence].
  destruct (percentile (nd_data a) (100 - p)) as [lo|e2]; [|congruence].
  destruct (nd_writeable a) eqn:W; simpl; congruence.
Qed.

Lemma percentile_invalid (a : arr2) (q : Q) :
  q < 0 \/ 100 < q -> percentile a q = inr (ValueError msg_percentile_range).
Proof.
  intros H; unfold percentile.
  replace (Qle_bool 0 q && Qle_bool q 100) with false; [reflexivity|].
  symmetry; apply andb_false_iff.
  destruct H as [H|H]; [left|right];
    destruct (Qle_bool _ _) eqn:E; auto; apply Qle_bool_iff in E;
    exfalso; eapply Qlt_not_le; eauto.
Qed.

Lemma saved_paths_app (l t : list event) :
  (forall ev, In ev l -> exists e, ev = Log e) ->
  saved_paths (l ++ t) = saved_paths t.
Proof.
  induction l as [|ev l IH]; intros H; simpl; auto.
  destruct (H ev (or_introl eq_refl)) as [e ->]; simpl.
  apply IH; intros ev' Hev; apply H; right; exact Hev.
Qed.

(* ================================================================== *)
(** * Claims *)

(** C1. For a volume of shape [(X, Y, Z)] (positive sizes), the sagittal,
    coronal and axial projections have shapes [(Y, Z)], [(X, Z)] and
    [(X, Y)], and each of their elements is the maximum of the volume's
    values along the collapsed axis at that index. *)
Theorem get_image_slices_data_correct (v : arr3) (X Y Z : nat) :
  (0 < X)%nat -> (0 < Y)%nat -> (0 < Z)%nat -> shape3b v X Y Z = true ->
  let '(sagittal, coronal, axial) := get_image_slices_data v in
  shape2b sagittal Y Z = true /\ shape2b coronal X Z = true /\
  shape2b axial X Y = true /\
  (forall j k, (j < Y)%nat -> (k < Z)%nat ->
     is_max_over (get2 sagittal j k) (fun i => (i < X)%nat) (fun i => get3 v i j k)) /\
  (forall i k, (i < X)%nat -> (k < Z)%nat ->
     is_max_over (get2 coronal i k) (fun j => (j < Y)%nat) (fun j => get3 v i j k)) /\
  (forall i j, (i < X)%nat -> (j < Y)%nat ->
     is_max_over (get2 axial i j) (fun k => (k < Z)%nat) (fun k => get3 v i j k)).
Proof.
  intros HX HY HZ Hs; unfold get_image_slices_data; cbv beta iota zeta.
  destruct (amax_axis0_spec v X Y Z HX HY HZ Hs) as [S0 M0].
  destruct (amax_axis1_spec v X Y Z HX HY HZ Hs) as [S1 M1].
  destruct (amax_axis2_spec v X Y Z HX HY HZ Hs) as [S2 M2].
  split; [exact S0|split; [exact S1|split; [exact S2|split; [exact M0|split; [exact M1|exact M2]]]]].
Qed.

Lemma get_image_slices_data_correct_witness :
  let v := [[[1;5;2;0];[3;3;3;3];[0;9;1;1]]; [[4;1;7;2];[2;8;0;6];[5;5;5;5]]] in
  ((0 < 2)%nat /\ (0 < 3)%nat /\ (0 < 4)%nat /\ shape3b v 2 3 4 = true) /\
  (let '(sagittal, coronal, axial) := get_image_slices_data v in
  shape2b sagittal 3 4 = true /\ shape2b coronal 2 4 = true /\
  shape2b axial 2 3 = true /\
  (forall j k, (j < 3)%nat -> (k < 4)%nat ->
     is_max_over (get2 sagittal j k) (fun i => (i < 2)%nat) (fun i => get3 v i j k)) /\
  (forall i k, (i < 2)%nat -> (k < 4)%nat ->
     is_max_over (get2 coronal i k) (fun j => (j < 3)%nat) (fun j => get3 v i j k)) /\
  (forall i j, (i < 2)%nat -> (j < 3)%nat ->
     is_max_over (get2 axial i j) (fun k => (k < 4)%nat) (fun k => get3 v i j k))).
Proof.
  intros v; split.
  - split; [lia|split; [lia|split; [lia|reflexivity]]].
  - apply (get_image_slices_data_correct v 2 3 4); [lia|lia|lia|reflexivity].
Defined.

(** C3. For a percentile outside [[0, 100]] the clipper returns the input
    array object unchanged and logs the range error; no exception
    escapes (the result is an ordinary return value). *)
Theorem clipper_out_of_range_identity (image_data : ndarray) (p : Q) :
  p < 0 \/ 100 < p ->
  set_min_max_threshold_value image_data p
  = (image_data, [(INFO, msg_threshold); (ERROR, msg_percentile_range)]).
Proof.
  intros Hp; unfold set_min_max_threshold_value, clip_body, np_bind, np_percentile.
  rewrite (percentile_invalid _ _ Hp); reflexivity.
Qed.

Lemma clipper_out_of_range_identity_witness :
  let a := mk_ndarray [[1; 7]; [3; 2]] true in
  ((150 : Q) < 0 \/ 100 < 150) /\
  set_min_max_threshold_value a 150
  = (a, [(INFO, msg_threshold); (ERROR, msg_percentile_range)]).
Proof.
  intros a; split.
  - right; reflexivity.
  - apply clipper_out_of_range_identity; right; reflexivity.
Defined.

(** C9. The clipper's error path is atomic: whenever it logs an error
    (an exception was caught), the returned array object is exactly the
    input one, no element written. *)
Theorem clipper_error_path_atomic (image_data : ndarray) (p : Q) (m : string) :
  In (ERROR, m) (snd (set_min_max_threshold_value image_data p)) ->
  fst (set_min_max_threshold_value image_data p) = image_data.
Proof.
  unfold set_min_max_threshold_value.
  destruct (clip_body p image_data) as [r a'] eqn:E.
  destruct r as [u|[d|d]]; simpl.
  - intros [H|[]]; discriminate.
  - intros _; exact (clip_body_error_unchanged _ _ _ _ E).
  - intros _; exact (clip_body_error_unchanged _ _ _ _ E).
Qed.

Lemma clipper_error_path_atomic_witness :
  let a := mk_ndarray [[1; 7]; [3; 2]] false in
  In (ERROR, msg_percentile_range) (snd (set_min_max_threshold_value a (197 # 2))) /\
  fst (set_min_max_threshold_value a (197 # 2)) = a.
Proof.
  intros a; split.
  - simpl; right; left; reflexivity.
  - apply (clipper_error_path_atomic _ _ msg_percentile_range).
    simpl; right; left; reflexivity.
Defined.

(** C8. When the loaded volume's shape is not exactly three Python [int]
    dimensions, [main] logs the error and exits with status 1 right after
    loading: nothing is rendered (no renderer log line) and no file is
    written. *)
Theorem main_rejects_non_3d (output_folder filepath filename : string)
    (threshold_percentile : Q) (invert_image : bool) (nifti_file : nifti)
    (save_ok : string -> bool) :
  ~ (length (nifti_shape nifti_file) = 3%nat /\
     Forall (fun v => exists z, v = PyInt z) (nifti_shape nifti_file)) ->
  main output_folder filepath filename threshold_percentile invert_image
       (inl nifti_file) save_ok
  = [Log (INFO, "Loading nifti file - " ++ filepath); Log (ERROR, msg_not_3d);
     Log (INFO, msg_exiting); Exit 1%Z] /\
  saved_paths (main output_folder filepath filename threshold_percentile
                    invert_image (inl nifti_file) save_ok) = [].
Proof.
  intros Hn.
  assert (Hc : check_nifti_dimension (nifti_shape nifti_file) = false).
  { unfold check_nifti_dimension.
    destruct (forallb is_int _ && Nat.eqb _ 3) eqn:E; [|reflexivity].
    exfalso; apply Hn; apply andb_true_iff in E; destruct E as [E1 E2].
    split; [apply Nat.eqb_eq; exact E2|].
    rewrite forallb_forall in E1; apply Forall_forall; intros v Hv.
    specialize (E1 v Hv); destruct v as [z|]; [exists z; reflexivity|discriminate]. }
  unfold main; rewrite Hc; split; reflexivity.
Qed.

Lemma main_rejects_non_3d_witness :
  let nf := mk_nifti [PyInt 4; PyInt 4] [] None in
  ~ (length (nifti_shape nf) = 3%nat /\
     Forall (fun v => exists z, v = PyInt z) (nifti_shape nf)) /\
  main "out" "in/scan.nii.gz" "scan.nii.gz" (197 # 2) true (inl nf) (fun _ => true)
  = [Log (INFO, "Loading nifti file - " ++ "in/scan.nii.gz"); Log (ERROR, msg_not_3d);
     Log (INFO, msg_exiting); Exit 1%Z] /\
  saved_paths (main "out" "in/scan.nii.gz" "scan.nii.gz" (197 # 2) true
                    (inl nf) (fun _ => true)) = [].
Proof.
  intros nf.
  assert (H : ~ (length (nifti_shape nf) = 3%nat /\
     Forall (fun v => exists z, v = PyInt z) (nifti_shape nf))).
  { simpl; intros [H _]; discriminate. }
  split; [exact H|].
  apply main_rejects_non_3d; exact H.
Defined.

Lemma string_append_empty_r (s : string) : s ++ "" = s.
Proof. induction s as [|c s IH]; simpl; [reflexivity|rewrite IH; reflexivity]. Qed.

Lemma string_append_assoc (a b c : string) : (a ++ b) ++ c = a ++ (b ++ c).
Proof. induction a as [|x a IH]; simpl; [reflexivity|rewrite IH; reflexivity]. Qed.

Lemma substring_whole (s : string) : substring 0 (String.length s) s = s.
Proof. induction s as [|c s IH]; simpl; [reflexivity|rewrite IH; reflexivity]. Qed.

(** The first piece of [s.split(sep)] (after the text [cur] already
    scanned): the longest prefix of [s] in which [sep] does not start,
    followed either by the end of [s] or by an occurrence of [sep]. *)
Lemma split_go_head (sep : string) : forall s fuel cur,
  (String.length s < fuel)%nat ->
  exists P R, s = P ++ R /\
    hd "" (split_go fuel sep s cur) = cur ++ P /\
    (R = "" \/ prefix sep R = true) /\
    (forall i, (i < String.length P)%nat -> occurs_at sep s i = false).
Proof.
  induction s as [|c s IH]; intros fuel cur Hf; destruct fuel as [|f]; simpl in Hf; try lia.
  - exists "", ""; simpl; split; [reflexivity|split; [|split; [left; reflexivity|]]].
    + symmetry; apply string_append_empty_r.
    + intros i Hi; simpl in Hi; lia.
  - assert (U : split_go (S f) sep (String c s) cur
      = if prefix sep (String c s)
        then cur :: split_go f sep (substring (String.length sep)
                                    (String.length (String c s) - String.length sep) (String c s)) ""
        else split_go f sep s (cur ++ String c "")) by reflexivity.
    rewrite U; destruct (prefix sep (String c s)) eqn:Ep.
    + exists "", (String c s); cbn [hd]; split; [reflexivity|split; [|split; [right; exact Ep|]]].
      * symmetry; apply string_append_empty_r.
      * intros i Hi; simpl in Hi; lia.
    + destruct (IH f (cur ++ String c "")) as (P & R & E1 & E2 & E3 & E4); [lia|].
      exists (String c P), R; split; [simpl; rewrite E1; reflexivity|].
      split; [rewrite E2, string_append_assoc; reflexivity|].
      split; [exact E3|].
      intros [|i] Hi.
      * unfold occurs_at; rewrite Nat.sub_0_r, substring_whole; exact Ep.
      * simpl in Hi; unfold occurs_at; simpl String.length.
        simpl substring; apply E4; lia.
Qed.

Lemma string_length_app (a b : string) :
  String.length (a ++ b) = (String.length a + String.length b)%nat.
Proof. induction a as [|c a IH]; simpl; [reflexivity|rewrite IH; reflexivity]. Qed.

Lemma substring_app_l (a b : string) n :
  substring (String.length a) n (a ++ b) = substring 0 n b.
Proof. induction a as [|c a IH]; simpl; [reflexivity|exact IH]. Qed.

Lemma occurs_at_app (sep a b : string) :
  occurs_at sep (a ++ b) (String.length a) = prefix sep b.
Proof.
  unfold occurs_at; rewrite string_length_app, substring_app_l.
  replace (String.length a + String.length b - String.length a)%nat with (String.length b) by lia.
  rewrite substring_whole; reflexivity.
Qed.

Lemma string_app_eq_len (a b c d : string) :
  a ++ b = c ++ d -> String.length a = String.length c -> a = c.
Proof.
  revert c; induction a as [|x a IH]; intros [|y c] E L; simpl in *; try lia; [reflexivity|].
  injection E as -> E; f_equal; apply (IH c E); lia.
Qed.

(** The stem [filename.split(".nii")[0]] is any prefix [P] of the name
    that is followed by the end of the name or by [".nii"] and in which
    no [".nii"] starts. *)
Lemma py_split_nii_head (name P R : string) :
  name = P ++ R -> (R = "" \/ prefix ".nii" R = true) ->
  (forall i, (i < String.length P)%nat -> occurs_at ".nii" name i = false) ->
  hd "" (py_split name ".nii") = P.
Proof.
  intros E HR HP.
  destruct (split_go_head ".nii" name (S (String.length name)) "")
    as (P' & R' & E1 & E2 & E3 & E4); [lia|].
  unfold py_split; rewrite E2; cbn [append].
  assert (Lname : String.length name = (String.length P + String.length R)%nat)
    by (rewrite E; apply string_length_app).
  assert (Lname' : String.length name = (String.length P' + String.length R')%nat)
    by (rewrite E1 at 1; apply string_length_app).
  destruct (Nat.lt_trichotomy (String.length P') (String.length P)) as [Lt|[Eq|Gt]].
  - exfalso; destruct E3 as [->|E3].
    + destruct HR as [->|HR]; simpl in *; [lia|].
      destruct R as [|c R]; [discriminate|simpl in Lname; lia].
    + pose proof (HP _ Lt) as F; rewrite E1, occurs_at_app in F; congruence.
  - symmetry; apply (string_app_eq_len P R P' R'); [rewrite <- E, <- E1|]; auto.
  - exfalso; destruct HR as [->|HR].
    + destruct E3 as [->|E3]; simpl in *; [lia|].
      destruct R' as [|c R']; [discriminate|simpl in Lname'; lia].
    + pose proof (E4 _ Gt) as F; rewrite E, occurs_at_app in F; congruence.
Qed.

Lemma get_image_slices_data_np_ok (v : arr3) (X Y Z : nat) :
  shape3b v X Y Z = true -> (0 < X)%nat -> (0 < Y)%nat -> (0 < Z)%nat ->
  get_image_slices_data_np v = inl (get_image_slices_data v).
Proof.
  intros Hs HX HY HZ; apply shape3b_spec in Hs; destruct Hs as [L F].
  destruct v as [|pl v]; [simpl in L; lia|].
  apply Forall_cons_iff in F; destruct F as [[Lp Fp] _].
  destruct pl as [|row pl]; [simpl in Lp; lia|].
  apply Forall_cons_iff in Fp; destruct Fp as [Lr _].
  unfold get_image_slices_data_np, np_amax3, axis_len; cbn [hd length].
  destruct (Nat.eqb_spec (S (length v)) 0); [lia|].
  destruct (Nat.eqb_spec (S (length pl)) 0); [lia|].
  destruct (Nat.eqb_spec (length row) 0); [lia|].
  reflexivity.
Qed.

(** When the data reads and no axis is empty, a run whose writes all
    succeed writes the three output paths. *)
Lemma main_saved_paths_all_ok (output_folder filepath filename : string) (p : Q)
    (invert_image : bool) (nf : nifti) (X Y Z : nat) :
  check_nifti_dimension (nifti_shape nf) = true -> nifti_fdata_error nf = None ->
  shape3b (nifti_fdata nf) X Y Z = true -> (0 < X)%nat -> (0 < Y)%nat -> (0 < Z)%nat ->
  saved_paths (main output_folder filepath filename p invert_image (inl nf) (fun _ => true))
  = mips_paths output_folder filename.
Proof.
  intros Hc He Hs HX HY HZ.
  unfold main; rewrite Hc, He, (get_image_slices_data_np_ok _ X Y Z Hs HX HY HZ).
  destruct (get_image_slices_data (nifti_fdata nf)) as [[sg cr] ax].
  destruct (process_mips (mk_ndarray sg true) p invert_image) as [i1 l1].
  destruct (process_mips (mk_ndarray cr true) p invert_image) as [i2 l2].
  destruct (process_mips (mk_ndarray ax true) p invert_image) as [i3 l3].
  simpl saved_paths; rewrite saved_paths_app.
  - reflexivity.
  - intros ev Hev; apply in_map_iff in Hev; destruct Hev as (e & <- & _); eauto.
Qed.

(** C7 (corrected). On a run that reaches the export step (the volume
    loads, its data reads, no axis is empty) and whose writes succeed:
    for a file name [base ++ ".nii"] or [base ++ ".nii.gz"] in which no
    [".nii"] starts before the suffix, the three files are
    [os.path.join(output_dir, base + "_MIPs_sag.png")], [... "_MIPs_cor.png"]
    and [... "_MIPs_ax.png"], in this order; a name in which [".nii"]
    does not occur (another volume format, e.g. [".mgz"]) is kept whole. *)
Theorem main_output_paths (output_folder filepath : string)
    (threshold_percentile : Q) (invert_image : bool) (nifti_file : nifti) (X Y Z : nat) :
  check_nifti_dimension (nifti_shape nifti_file) = true ->
  nifti_fdata_error nifti_file = None ->
  shape3b (nifti_fdata nifti_file) X Y Z = true -> (0 < X)%nat -> (0 < Y)%nat -> (0 < Z)%nat ->
  (forall base suffix,
     suffix = ".nii" \/ suffix = ".nii.gz" ->
     (forall i, (i < String.length base)%nat -> occurs_at ".nii" (base ++ suffix) i = false) ->
     saved_paths (main output_folder filepath (base ++ suffix) threshold_percentile
                       invert_image (inl nifti_file) (fun _ => true))
     = [path_join output_folder (base ++ "_MIPs_sag.png");
        path_join output_folder (base ++ "_MIPs_cor.png");
        path_join output_folder (base ++ "_MIPs_ax.png")]) /\
  (forall filename,
     (forall i, occurs_at ".nii" filename i = false) ->
     saved_paths (main output_folder filepath filename threshold_percentile
                       invert_image (inl nifti_file) (fun _ => true))
     = [path_join output_folder (filename ++ "_MIPs_sag.png");
        path_join output_folder (filename ++ "_MIPs_cor.png");
        path_join output_folder (filename ++ "_MIPs_ax.png")]).
Proof.
  intros Hc He Hs HX HY HZ; split.
  - intros base suffix Hsuf Hocc.
    rewrite (main_saved_paths_all_ok _ _ _ _ _ _ X Y Z Hc He Hs HX HY HZ).
    unfold mips_paths, create_mips_file_name.
    rewrite (py_split_nii_head (base ++ suffix) base suffix eq_refl); [reflexivity| |exact Hocc].
    right; destruct Hsuf as [->| ->]; reflexivity.
  - intros filename Hocc.
    rewrite (main_saved_paths_all_ok _ _ _ _ _ _ X Y Z Hc He Hs HX HY HZ).
    unfold mips_paths, create_mips_file_name.
    rewrite (py_split_nii_head filename filename "");
      [reflexivity|symmetry; apply string_append_empty_r|left; reflexivity|].
    intros i _; apply Hocc.
Qed.

Lemma main_output_paths_witness :
  let nf := mk_nifti [PyInt 1; PyInt 1; PyInt 1] [[[5]]] None in
  (check_nifti_dimension (nifti_shape nf) = true /\ nifti_fdata_error nf = None /\
   shape3b (nifti_fdata nf) 1 1 1 = true /\ (0 < 1)%nat) /\
  saved_paths (main "out" "in/scan.nii.gz" ("scan" ++ ".nii.gz") (197 # 2) true
                    (inl nf) (fun _ => true))
  = [path_join "out" ("scan" ++ "_MIPs_sag.png");
     path_join "out" ("scan" ++ "_MIPs_cor.png");
     path_join "out" ("scan" ++ "_MIPs_ax.png")] /\
  saved_paths (main "out" "in/brain.mgz" "brain.mgz" (197 # 2) true
                    (inl nf) (fun _ => true))
  = [path_join "out" ("brain.mgz" ++ "_MIPs_sag.png");
     path_join "out" ("brain.mgz" ++ "_MIPs_cor.png");
     path_join "out" ("brain.mgz" ++ "_MIPs_ax.png")].
Proof.
  intros nf.
  assert (Hc : check_nifti_dimension (nifti_shape nf) = true) by reflexivity.
  assert (He : nifti_fdata_error nf = None) by reflexivity.
  assert (Hs : shape3b (nifti_fdata nf) 1 1 1 = true) by reflexivity.
  assert (H1 : (0 < 1)%nat) by lia.
  split; [split; [exact Hc|split; [exact He|split; [exact Hs|exact H1]]]|split].
  - apply (proj1 (main_output_paths "out" "in/scan.nii.gz" (197 # 2) true nf 1 1 1
                    Hc He Hs H1 H1 H1)).
    + right; reflexivity.
    + intros i Hi; destruct i as [|[|[|[|i]]]]; [reflexivity..|simpl in Hi; lia].
  - apply (proj2 (main_output_paths "out" "in/brain.mgz" (197 # 2) true nf 1 1 1
                    Hc He Hs H1 H1 H1)).
    intros i; destruct i as [|[|[|[|[|[|[|[|[|i]]]]]]]]]; try reflexivity.
    unfold occurs_at; simpl; destruct i; reflexivity.
Defined.

(** C7 fails as stated: only a [".nii"] suffix is stripped; a volume
    suffix of another format, such as [".mgz"], is kept in the output
    file names. *)
Lemma create_mips_file_name_counterexample :
  path_join "out" (create_mips_file_name "brain.mgz" "MIPs_sag.png")
    = "out/brain.mgz_MIPs_sag.png" /\
  path_join "out" (create_mips_file_name "brain.mgz" "MIPs_sag.png")
    <> "out/brain_MIPs_sag.png".
Proof.
  split; [reflexivity|].
  vm_compute; discriminate.
Qed.

(* ------------------------------------------------------------------ *)
(** ** The scaler *)

Lemma qmin_le_l a b : qmin a b <= a.
Proof.
  unfold qmin; destruct (Qle_bool a b) eqn:E; [apply Qle_refl|].
  apply Qlt_le_weak, Qnot_le_lt; intro H; apply Qle_bool_iff in H; congruence.
Qed.

Lemma qmin_le_r a b : qmin a b <= b.
Proof.
  unfold qmin; destruct (Qle_bool a b) eqn:E; [apply Qle_bool_iff; exact E|apply Qle_refl].
Qed.

Lemma fold_qmin_spec : forall l a,
  fold_left qmin l a <= a /\ (forall x, In x l -> fold_left qmin l a <= x).
Proof.
  induction l as [|y l IH]; intros a; simpl.
  - split; [apply Qle_refl|tauto].
  - destruct (IH (qmin a y)) as (H1 & H2); split.
    + eapply Qle_trans; [exact H1|apply qmin_le_l].
    + intros x [<-|Hx]; [|auto].
      eapply Qle_trans; [exact H1|apply qmin_le_r].
Qed.

(** Every element lies between [a.min()] and [a.max()]. *)
Lemma amin_amax_bounds (a : arr2) x :
  In x (concat a) -> amin_all a <= x /\ x <= amax_all a.
Proof.
  unfold amin_all, amax_all, list_min, list_max.
  destruct (concat a) as [|y t]; [intros []|]; simpl; intros Hx.
  destruct (fold_qmin_spec t y) as [L1 L2]; destruct (fold_qmax_spec t y) as (M1 & M2 & _).
  destruct Hx as [<-|Hx]; split; auto.
Qed.

Lemma scale_values_eq (a : arr2) :
  scale_values a = map (map (scale_value (amin_all a) (amax_all a))) a.
Proof.
  unfold scale_values, scale_float; rewrite map_map; apply map_ext.
  intros row; rewrite map_map; reflexivity.
Qed.

Lemma np_div_pos (n d : Q) : 0 < d -> np_div n d = Fin (n / d).
Proof.
  intros Hd; unfold np_div.
  destruct (Qeq_bool d 0) eqn:E; [|reflexivity].
  apply Qeq_bool_iff in E; exfalso; rewrite E in Hd; apply (Qlt_irrefl 0); exact Hd.
Qed.

Lemma astype_uint8_in_range (q : Q) :
  0 <= q -> q <= 255 -> astype_uint8 (Fin q) = Some (Qfloor q) /\ (0 <= Qfloor q <= 255)%Z.
Proof.
  intros H0 H1; unfold astype_uint8, qltb.
  replace (Qle_bool 0 q) with true by (symmetry; apply Qle_bool_iff; exact H0).
  replace (Qle_bool 256 q) with false.
  - split; [reflexivity|split].
    + change 0%Z with (Qfloor 0); apply Qfloor_resp_le; exact H0.
    + change 255%Z with (Qfloor 255); apply Qfloor_resp_le; exact H1.
  - symmetry; destruct (Qle_bool 256 q) eqn:E; [|reflexivity].
    apply Qle_bool_iff in E; exfalso; lra.
Qed.

Lemma scale_ratio_bounds mn mx x :
  mn < mx -> mn <= x <= mx -> 0 <= scale_ratio mn mx x <= 255.
Proof.
  intros H [Hx1 Hx2]; unfold scale_ratio; split.
  - apply Qle_shift_div_l; lra.
  - apply Qle_shift_div_r; lra.
Qed.

Lemma scale_ratio_mono mn mx x y :
  mn < mx -> x <= y -> scale_ratio mn mx x <= scale_ratio mn mx y.
Proof.
  intros H Hxy; unfold scale_ratio, Qdiv.
  apply Qmult_le_compat_r; [lra|].
  apply Qinv_le_0_compat; lra.
Qed.

Lemma scale_value_spec mn mx x :
  mn < mx -> mn <= x <= mx ->
  scale_value mn mx x = Some (Qfloor (scale_ratio mn mx x)) /\
  (0 <= Qfloor (scale_ratio mn mx x) <= 255)%Z.
Proof.
  intros H Hx; unfold scale_value; rewrite np_div_pos by lra.
  destruct (scale_ratio_bounds mn mx x H Hx); apply astype_uint8_in_range; auto.
Qed.

Lemma get2_in_concat (a : arr2) i j :
  (j < length (nth i a []))%nat -> (i < length a)%nat /\ In (get2 a i j) (concat a).
Proof.
  intros Hj; assert (Hi : (i < length a)%nat).
  { destruct (Nat.lt_ge_cases i (length a)) as [Hi|Hi]; [exact Hi|].
    rewrite nth_overflow in Hj by exact Hi; simpl in Hj; lia. }
  split; [exact Hi|]; unfold get2; apply in_concat.
  exists (nth i a []); split; apply nth_In; auto.
Qed.

Lemma scale_values_nth (a : arr2) i j :
  (j < length (nth i a []))%nat ->
  nth j (nth i (scale_values a) []) None
  = scale_value (amin_all a) (amax_all a) (get2 a i j).
Proof.
  intros Hj; destruct (get2_in_concat a i j Hj) as [Hi _].
  rewrite scale_values_eq, (nth_map_lt _ _ _ []) by exact Hi.
  rewrite (nth_map_lt _ _ _ 0) by exact Hj; reflexivity.
Qed.

(** C4. For a 2-D array whose maximum exceeds its minimum, every element
    of the scaled [uint8] array is defined and in [[0, 255]], and the
    scaling is monotonic: a smaller input value never scales to a larger
    output value. *)
Theorem scale_image_data_range_monotone (a : arr2) :
  amin_all a < amax_all a ->
  (forall row o, In row (scale_values a) -> In o row ->
     exists z, o = Some z /\ (0 <= z <= 255)%Z) /\
  (forall i1 j1 i2 j2,
     (j1 < length (nth i1 a []))%nat -> (j2 < length (nth i2 a []))%nat ->
     get2 a i1 j1 < get2 a i2 j2 ->
     exists z1 z2, nth j1 (nth i1 (scale_values a) []) None = Some z1 /\
                   nth j2 (nth i2 (scale_values a) []) None = Some z2 /\
                   (z1 <= z2)%Z).
Proof.
  intros H; split.
  - intros row o Hrow Ho; rewrite scale_values_eq in Hrow.
    apply in_map_iff in Hrow; destruct Hrow as (r & <- & Hr).
    apply in_map_iff in Ho; destruct Ho as (x & <- & Hx).
    assert (Hb : amin_all a <= x <= amax_all a)
      by (apply amin_amax_bounds, in_concat; eauto).
    destruct (scale_value_spec _ _ x H Hb) as [E R]; eauto.
  - intros i1 j1 i2 j2 H1 H2 Hlt.
    rewrite (scale_values_nth a i1 j1 H1), (scale_values_nth a i2 j2 H2).
    assert (B1 := amin_amax_bounds a _ (proj2 (get2_in_concat a i1 j1 H1))).
    assert (B2 := amin_amax_bounds a _ (proj2 (get2_in_concat a i2 j2 H2))).
    destruct (scale_value_spec _ _ _ H B1) as [E1 _].
    destruct (scale_value_spec _ _ _ H B2) as [E2 _].
    do 2 eexists; split; [exact E1|split; [exact E2|]].
    apply Qfloor_resp_le, scale_ratio_mono; [exact H|apply Qlt_le_weak; exact Hlt].
Qed.

Lemma scale_image_data_range_monotone_witness :
  let a := [[3; 1 # 2]; [7; 2]] in
  amin_all a < amax_all a /\
  (forall row o, In row (scale_values a) -> In o row ->
     exists z, o = Some z /\ (0 <= z <= 255)%Z) /\
  (forall i1 j1 i2 j2,
     (j1 < length (nth i1 a []))%nat -> (j2 < length (nth i2 a []))%nat ->
     get2 a i1 j1 < get2 a i2 j2 ->
     exists z1 z2, nth j1 (nth i1 (scale_values a) []) None = Some z1 /\
                   nth j2 (nth i2 (scale_values a) []) None = Some z2 /\
                   (z1 <= z2)%Z).
Proof.
  intros a.
  assert (H : amin_all a < amax_all a) by reflexivity.
  split; [exact H|]; apply scale_image_data_range_monotone; exact H.
Defined.

(** C10. With exact arithmetic and a maximum exceeding the minimum, every
    position holding the array minimum scales to exactly 0 and every
    position holding the array maximum to exactly 255. *)
Theorem scale_image_data_endpoints (a : arr2) :
  amin_all a < amax_all a ->
  forall i j, (j < length (nth i a []))%nat ->
    (get2 a i j == amin_all a ->
       nth j (nth i (scale_values a) []) None = Some 0%Z) /\
    (get2 a i j == amax_all a ->
       nth j (nth i (scale_values a) []) None = Some 255%Z).
Proof.
  intros H i j Hj; rewrite (scale_values_nth a i j Hj).
  assert (B := amin_amax_bounds a _ (proj2 (get2_in_concat a i j Hj))).
  destruct (scale_value_spec _ _ _ H B) as [E _]; rewrite E.
  split; intros Hx; f_equal.
  - assert (R : scale_ratio (amin_all a) (amax_all a) (get2 a i j) == 0).
    { unfold scale_ratio; rewrite Hx; field; lra. }
    rewrite R; reflexivity.
  - assert (R : scale_ratio (amin_all a) (amax_all a) (get2 a i j) == 255).
    { unfold scale_ratio; rewrite Hx; field; lra. }
    rewrite R; reflexivity.
Qed.

Lemma scale_image_data_endpoints_witness :
  let a := [[3; 1 # 2]; [7; 2]] in
  amin_all a < amax_all a /\
  nth 1 (nth 0 (scale_values a) []) None = Some 0%Z /\
  nth 0 (nth 1 (scale_values a) []) None = Some 255%Z.
Proof.
  intros a.
  assert (H : amin_all a < amax_all a) by reflexivity.
  split; [exact H|split].
  - apply (proj1 (scale_image_data_endpoints a H 0 1 ltac:(simpl; lia))); reflexivity.
  - apply (proj2 (scale_image_data_endpoints a H 1 0 ltac:(simpl; lia))); reflexivity.
Defined.

(** C5 (defect). On a constant array the scaler divides [0 * 255] by
    [max - min = 0]: numpy yields NaN for every element (a warning, no
    exception), and the [uint8] cast of NaN is left undefined, so no fixed
    output is defined. *)
Theorem scale_image_data_constant_nan :
  scale_float [[3; 3]] = [[NaN; NaN]] /\
  scale_values [[3; 3]] = [[None; None]].
Proof. split; reflexivity. Qed.

(* ------------------------------------------------------------------ *)
(** ** Monotonicity of the percentile in [q] *)

Lemma sort_strongly_sorted (l : list Q) : StronglySorted qle_rel (QSort.sort l).
Proof.
  apply QSort.StronglySorted_sort.
  intros x y z; unfold is_true, QLeb.leb; rewrite !Qle_bool_iff; apply Qle_trans.
Qed.

Lemma sorted_nth_le : forall s, StronglySorted qle_rel s ->
  forall i j, (i <= j)%nat -> (j < length s)%nat -> nth i s 0 <= nth j s 0.
Proof.
  induction s as [|x t IH]; intros Hs i j Hij Hj; simpl in Hj; [lia|].
  apply StronglySorted_inv in Hs; destruct Hs as [Ht Hx].
  destruct i as [|i], j as [|j]; simpl; try lia.
  - apply Qle_refl.
  - rewrite Forall_forall in Hx; apply Qle_bool_iff, Hx, nth_In; lia.
  - apply IH; auto; lia.
Qed.

Lemma percentile_sorted_interp s q :
  percentile_sorted s q = interp s (q / 100 * inject_Z (Z.of_nat (length s) - 1)).
Proof. reflexivity. Qed.

Lemma floor_range (v : Q) (N : Z) :
  0 <= v -> v <= inject_Z N -> (0 <= Qfloor v <= N)%Z.
Proof.
  intros H0 H1; split.
  - change 0%Z with (Qfloor 0); apply Qfloor_resp_le; exact H0.
  - rewrite <- (Qfloor_Z N); apply Qfloor_resp_le; exact H1.
Qed.

Lemma interp_bounds s v :
  StronglySorted qle_rel s -> 0 <= v -> v <= inject_Z (Z.of_nat (length s) - 1) ->
  nth (Z.to_nat (Qfloor v)) s 0 <= interp s v /\
  interp s v <= nth (Nat.min (S (Z.to_nat (Qfloor v))) (length s - 1)) s 0.
Proof.
  intros Hs H0 H1; unfold interp.
  pose proof (floor_range v _ H0 H1) as Fr.
  assert (Hl : (length s > 0)%nat) by lia.
  set (lo := Z.to_nat (Qfloor v)); set (hi := Nat.min (S lo) (length s - 1)).
  assert (Hd : nth lo s 0 <= nth hi s 0) by (apply sorted_nth_le; auto; unfold hi, lo; lia).
  pose proof (Qfloor_le v) as G0; pose proof (Qlt_floor v) as G1.
  rewrite inject_Z_plus in G1.
  assert (Hg0 : 0 <= v - inject_Z (Qfloor v)) by lra.
  assert (Hg1 : v - inject_Z (Qfloor v) <= 1) by (unfold inject_Z at 2 in G1; lra).
  assert (Hdd : 0 <= nth hi s 0 - nth lo s 0) by lra.
  split.
  - assert (0 <= (v - inject_Z (Qfloor v)) * (nth hi s 0 - nth lo s 0))
      by (apply Qmult_le_0_compat; auto); lra.
  - assert ((v - inject_Z (Qfloor v)) * (nth hi s 0 - nth lo s 0)
            <= 1 * (nth hi s 0 - nth lo s 0)) by (apply Qmult_le_compat_r; auto); lra.
Qed.

Lemma interp_mono s v1 v2 :
  StronglySorted qle_rel s -> 0 <= v1 -> v1 <= v2 ->
  v2 <= inject_Z (Z.of_nat (length s) - 1) ->
  interp s v1 <= interp s v2.
Proof.
  intros Hs H0 H12 H2.
  assert (H1 : v1 <= inject_Z (Z.of_nat (length s) - 1)) by lra.
  assert (H0' : 0 <= v2) by lra.
  pose proof (floor_range v1 _ H0 H1) as F1; pose proof (floor_range v2 _ H0' H2) as F2.
  pose proof (Qfloor_resp_le _ _ H12) as Fle.
  destruct (Z.eq_dec (Qfloor v1) (Qfloor v2)) as [Feq|Flt].
  - unfold interp; rewrite Feq.
    set (lo := Z.to_nat (Qfloor v2)); set (hi := Nat.min (S lo) (length s - 1)).
    assert (Hd : nth lo s 0 <= nth hi s 0) by (apply sorted_nth_le; auto; unfold hi, lo; lia).
    assert ((v1 - inject_Z (Qfloor v2)) * (nth hi s 0 - nth lo s 0)
            <= (v2 - inject_Z (Qfloor v2)) * (nth hi s 0 - nth lo s 0))
      by (apply Qmult_le_compat_r; lra).
    lra.
  - destruct (interp_bounds s v1 Hs H0 H1) as [_ B1].
    destruct (interp_bounds s v2 Hs H0' H2) as [B2 _].
    assert (nth (Nat.min (S (Z.to_nat (Qfloor v1))) (length s - 1)) s 0
            <= nth (Z.to_nat (Qfloor v2)) s 0) by (apply sorted_nth_le; auto; lia).
    lra.
Qed.

(** [np.percentile] is monotone in [q] on a non-empty array. *)
Lemma percentile_mono (a : arr2) q1 q2 h1 h2 :
  0 <= q1 -> q1 <= q2 -> percentile a q1 = inl h1 -> percentile a q2 = inl h2 ->
  h1 <= h2.
Proof.
  intros H0 H12; unfold percentile.
  destruct (Qle_bool 0 q1 && Qle_bool q1 100) eqn:E1; [|discriminate].
  destruct (Qle_bool 0 q2 && Qle_bool q2 100) eqn:E2; [|discriminate].
  apply andb_true_iff in E2; destruct E2 as [_ E2]; apply Qle_bool_iff in E2.
  destruct (concat a) as [|x t] eqn:Ec; [discriminate|].
  intros Eh1 Eh2; injection Eh1 as <-; injection Eh2 as <-.
  rewrite !percentile_sorted_interp.
  set (s := QSort.sort (x :: t)).
  assert (Hn : (length s > 0)%nat).
  { unfold s; rewrite <- (Permutation_length (QSort.Permuted_sort (x :: t))); simpl; lia. }
  assert (HN : 0 <= inject_Z (Z.of_nat (length s) - 1)).
  { change 0 with (inject_Z 0); rewrite <- Zle_Qle; lia. }
  apply interp_mono.
  - apply sort_strongly_sorted.
  - apply Qmult_le_0_compat; [apply Qle_shift_div_l; lra|exact HN].
  - apply Qmult_le_compat_r; [|exact HN].
    unfold Qdiv; apply Qmult_le_compat_r; [exact H12|apply Qinv_le_0_compat; lra].
  - rewrite <- (Qmult_1_l (inject_Z _)) at 2.
    apply Qmult_le_compat_r; [apply Qle_shift_div_r; lra|exact HN].
Qed.

(* ------------------------------------------------------------------ *)
(** ** The clipper on a valid percentile *)

Lemma qltb_spec a b : qltb a b = true <-> a < b.
Proof.
  unfold qltb; rewrite negb_true_iff; split; intros H.
  - apply Qnot_le_lt; intros H'; apply Qle_bool_iff in H'; congruence.
  - destruct (Qle_bool b a) eqn:E; [|reflexivity].
    apply Qle_bool_iff in E; exfalso; apply (Qlt_not_le a b); auto.
Qed.

Lemma qltb_false a b : qltb a b = false <-> b <= a.
Proof.
  split; intros H.
  - apply Qnot_lt_le; intros H'; apply qltb_spec in H'; congruence.
  - destruct (qltb a b) eqn:E; [|reflexivity].
    apply qltb_spec in E; exfalso; apply (Qlt_not_le a b); auto.
Qed.

Lemma percentile_ok (a : arr2) q :
  concat a <> [] -> 0 <= q <= 100 -> exists h, percentile a q = inl h.
Proof.
  intros Hn [H0 H1]; unfold percentile.
  replace (Qle_bool 0 q && Qle_bool q 100) with true
    by (symmetry; apply andb_true_iff; split; apply Qle_bool_iff; auto).
  destruct (concat a); [congruence|eauto].
Qed.

Lemma clip_then_spec low high e :
  (low <= high ->
     (e < low -> clip_then low high e = low) /\
     (high < e -> clip_then low high e = high) /\
     (low <= e -> e <= high -> clip_then low high e = e)) /\
  (high < low -> clip_then low high e = high).
Proof.
  unfold clip_then.
  destruct (qltb e low) eqn:E1; [apply qltb_spec in E1|apply qltb_false in E1];
    destruct (qltb high _) eqn:E2;
    try apply qltb_spec in E2; try apply qltb_false in E2;
    (split; [intros H; split; [intros H'|split; [intros H'|intros H' H'']]|intros H]);
    solve [reflexivity | exfalso; lra].
Qed.

Lemma clipper_valid_run (data : arr2) (p low high : Q) :
  percentile data p = inl high -> percentile data (100 - p) = inl low ->
  set_min_max_threshold_value (mk_ndarray data true) p
  = (mk_ndarray (map (map (clip_then low high)) data) true, [(INFO, msg_threshold)]).
Proof.
  intros Eh El.
  unfold set_min_max_threshold_value, clip_body, np_bind, np_percentile, setitem_where.
  cbn [nd_data nd_writeable]; rewrite Eh, El; cbn [nd_data nd_writeable].
  rewrite map_map; f_equal; f_equal.
  apply map_ext; intros row; rewrite map_map; reflexivity.
Qed.

(** C2 (as the code does it). For a non-empty array and [p] in
    [[0, 100]], with [high = percentile(p)] and [low = percentile(100 -
    p)], the clipper logs no error and maps every element [e] through the
    two masked assignments in order: when [low <= high] (always the case
    for [p >= 50]) elements below [low] become [low], elements above
    [high] become [high] and the others are unchanged; when [high < low]
    (only possible for [p < 50]) every element becomes [high]. *)
Theorem clipper_valid_percentile (data : arr2) (p : Q) :
  concat data <> [] -> 0 <= p <= 100 ->
  exists low high,
    percentile data p = inl high /\ percentile data (100 - p) = inl low /\
    (50 <= p -> low <= high) /\ (p <= 50 -> high <= low) /\
    snd (set_min_max_threshold_value (mk_ndarray data true) p) = [(INFO, msg_threshold)] /\
    exists f,
      nd_data (fst (set_min_max_threshold_value (mk_ndarray data true) p)) = map (map f) data /\
      forall e,
        (low <= high ->
           (e < low -> f e = low) /\ (high < e -> f e = high) /\
           (low <= e -> e <= high -> f e = e)) /\
        (high < low -> f e = high).
Proof.
  intros Hn Hp.
  destruct (percentile_ok data p Hn Hp) as [high Eh].
  destruct (percentile_ok data (100 - p) Hn) as [low El]; [lra|].
  exists low, high; split; [exact Eh|split; [exact El|split; [|split; [|split]]]].
  - intros H50; apply (percentile_mono data (100 - p) p); auto; lra.
  - intros H50; apply (percentile_mono data p (100 - p)); auto; lra.
  - rewrite (clipper_valid_run data p low high Eh El); reflexivity.
  - exists (clip_then low high); split.
    + rewrite (clipper_valid_run data p low high Eh El); reflexivity.
    + intros e; apply clip_then_spec.
Qed.

Lemma clipper_valid_percentile_witness :
  let data := [[1; 5; 2]; [9; 4; 7]] in
  concat data <> [] /\ 0 <= (197 # 2) <= 100 /\
  exists low high,
    percentile data (197 # 2) = inl high /\ percentile data (100 - (197 # 2)) = inl low /\
    (50 <= (197 # 2) -> low <= high) /\ ((197 # 2) <= 50 -> high <= low) /\
    snd (set_min_max_threshold_value (mk_ndarray data true) (197 # 2))
      = [(INFO, msg_threshold)] /\
    exists f,
      nd_data (fst (set_min_max_threshold_value (mk_ndarray data true) (197 # 2)))
        = map (map f) data /\
      forall e,
        (low <= high ->
           (e < low -> f e = low) /\ (high < e -> f e = high) /\
           (low <= e -> e <= high -> f e = e)) /\
        (high < low -> f e = high).
Proof.
  intros data.
  assert (Hn : concat data <> []) by discriminate.
  assert (Hp : 0 <= (197 # 2) <= 100) by (split; vm_compute; discriminate).
  split; [exact Hn|split; [exact Hp|]].
  apply clipper_valid_percentile; auto.
Defined.


(** C2 fails as stated for [p < 50]: on [[1, 2]] with [p = 0],
    [high = 1] and [low = 2]; the element 1 lies below [low] but ends as
    1, not 2 (the second assignment overwrites the first). *)
Lemma clipper_claim_counterexample :
  let out := nd_data (fst (set_min_max_threshold_value (mk_ndarray [[1; 2]] true) 0)) in
  exists low high,
    percentile [[1; 2]] 0 = inl high /\ percentile [[1; 2]] (100 - 0) = inl low /\
    high == 1 /\ low == 2 /\
    get2 [[1; 2]] 0 0 < low /\ ~ (get2 out 0 0 == low).
Proof.
  intros out; do 2 eexists.
  split; [reflexivity|split; [reflexivity|]].
  split; [reflexivity|split; [reflexivity|split; [reflexivity|]]].
  vm_compute; discriminate.
Qed.

(* ------------------------------------------------------------------ *)
(** ** The renderer *)

(** On a square image PIL's [rotate(90)] is the exact counter-clockwise
    quarter turn (PIL takes its [transpose(ROTATE_90)] fast path there,
    which this agrees with). *)
Lemma rotate90_square (img : image) :
  im_w img = im_h img -> rotate90 img = rot90_ccw img.
Proof.
  intros Hwh; unfold rotate90, rot90_ccw; rewrite <- Hwh.
  f_equal; apply map_ext_in; intros y Hy; apply in_seq in Hy.
  apply map_ext_in; intros x Hx; apply in_seq in Hx.
  unfold rotate_src; rewrite <- Hwh.
  set (n := im_w img) in *.
  assert (Ex : ((Z.of_nat n + Z.of_nat n - 2 * Z.of_nat y - 1) / 2)%Z = Z.of_nat (n - 1 - y)).
  { symmetry; apply Z.div_unique with 1%Z; lia. }
  assert (Ey : ((Z.of_nat n - Z.of_nat n + 2 * Z.of_nat x + 1) / 2)%Z = Z.of_nat x).
  { symmetry; apply Z.div_unique with 1%Z; lia. }
  rewrite Ex, Ey.
  replace ((0 <=? Z.of_nat (n - 1 - y))%Z && (Z.of_nat (n - 1 - y) <? Z.of_nat n)%Z &&
           (0 <=? Z.of_nat x)%Z && (Z.of_nat x <? Z.of_nat n)%Z) with true.
  - rewrite !Nat2Z.id; reflexivity.
  - symmetry; repeat rewrite andb_true_iff; rewrite !Z.leb_le, !Z.ltb_lt; lia.
Qed.

(** The steps of [process_mips], in order: clip, scale, [fromarray],
    invert when asked, rotate. *)
Lemma process_mips_steps (image_data : ndarray) (p : Q) (invert_image : bool) :
  fst (process_mips image_data p invert_image)
  = rotate90 (let img := fromarray (scale_values
                 (nd_data (fst (set_min_max_threshold_value image_data p)))) in
              if invert_image then invert img else img).
Proof.
  unfold process_mips, scale_image_data.
  destruct (set_min_max_threshold_value image_data p) as [u l1].
  destruct invert_image; reflexivity.
Qed.

(** The code renders as the specification says whenever the image is
    square. *)
Lemma process_mips_square (image_data : ndarray) (p : Q) (invert_image : bool) :
  let img := fromarray (scale_values
               (nd_data (fst (set_min_max_threshold_value image_data p)))) in
  im_w img = im_h img ->
  fst (process_mips image_data p invert_image) = render_spec image_data p invert_image.
Proof.
  intros img Hsq; rewrite process_mips_steps; unfold render_spec; fold img.
  apply rotate90_square; destruct invert_image; exact Hsq.
Qed.

(** C6 (defect). The order clip, scale, convert, invert, rotate holds
    ([process_mips_steps]), but [img.rotate(90)] without [expand=True]
    keeps the [w x h] frame: on the non-square 2 x 3 projection below the
    result is still 3 wide and 2 high, its right column is fill (0) and
    the input's first column is cut off, instead of the 2 x 3 quarter
    turn. *)
Theorem process_mips_non_square_cropped :
  let a := mk_ndarray [[1; 2; 3]; [4; 5; 6]] true in
  fst (process_mips a (197 # 2) true)
    = mk_image 3 2 [[Some 154; Some 0; Some 0]; [Some 207; Some 49; Some 0]]%Z /\
  render_spec a (197 # 2) true
    = mk_image 2 3 [[Some 154; Some 0]; [Some 207; Some 49]; [Some 255; Some 102]]%Z /\
  fst (process_mips a (197 # 2) true) <> render_spec a (197 # 2) true.
Proof.
  intros a.
  assert (E1 : fst (process_mips a (197 # 2) true)
    = mk_image 3 2 [[Some 154; Some 0; Some 0]; [Some 207; Some 49; Some 0]]%Z)
    by (vm_compute; reflexivity).
  assert (E2 : render_spec a (197 # 2) true
    = mk_image 2 3 [[Some 154; Some 0]; [Some 207; Some 49]; [Some 255; Some 102]]%Z)
    by (vm_compute; reflexivity).
  split; [exact E1|split; [exact E2|]].
  rewrite E1, E2; discriminate.
Qed.

(* ================================================================== *)
(** * Further properties of the code *)

(** ** [main]: exits and written files *)

Lemma last_app_cons {A} (l t : list A) (y d : A) :
  last (l ++ y :: t) d = last (y :: t) d.
Proof.
  induction l as [|x l IH]; [reflexivity|].
  rewrite <- app_comm_cons; simpl; rewrite IH.
  destruct l; simpl; [destruct t; reflexivity|destruct t; reflexivity].
Qed.

Lemma last_cons_ne {A} (x d : A) (l : list A) :
  l <> [] -> last (x :: l) d = last l d.
Proof. destruct l; [congruence|reflexivity]. Qed.

Lemma save_all_ne ok items : save_all ok items <> [].
Proof.
  destruct items as [|[p img] items]; simpl; [discriminate|].
  destruct (ok p); discriminate.
Qed.

Lemma save_all_spec (ok : string -> bool) : forall items,
  saved_paths (save_all ok items) = take_ok ok (map fst items) /\
  saved_items (save_all ok items) = firstn (length (take_ok ok (map fst items))) items /\
  ((exists c, In (Exit c) (save_all ok items)) <-> forallb ok (map fst items) = false) /\
  (forall c, In (Exit c) (save_all ok items) ->
     c = 1%Z /\ last (save_all ok items) (Log (INFO, "")) = Exit 1%Z) /\
  (forallb ok (map fst items) = true ->
     last (save_all ok items) (Log (INFO, "")) = Log (INFO, msg_success)).
Proof.
  induction items as [|[p img] items IH].
  - simpl; split; [reflexivity|split; [reflexivity|split; [|split]]].
    + split; [intros [c [H|[]]]; discriminate|discriminate].
    + intros c [H|[]]; discriminate.
    + reflexivity.
  - cbn [map fst forallb take_ok firstn length].
    destruct (ok p) eqn:Ep.
    + assert (Es : save_all ok ((p, img) :: items) = Saved p img :: save_all ok items)
        by (simpl; rewrite Ep; reflexivity).
      rewrite Es; destruct IH as (I1 & I2 & I3 & I4 & I5); simpl andb.
      split; [simpl; rewrite I1; reflexivity|split; [simpl; rewrite I2; reflexivity|split; [|split]]].
      * rewrite <- I3; split; intros [c H]; exists c;
          [destruct H as [H|H]; [discriminate|exact H]|right; exact H].
      * intros c [H|H]; [discriminate|].
        destruct (I4 c H) as [Hc Hl]; split; [exact Hc|].
        rewrite last_cons_ne by apply save_all_ne; exact Hl.
      * intros Hall; rewrite last_cons_ne by apply save_all_ne; exact (I5 Hall).
    + simpl; rewrite Ep; simpl.
      split; [reflexivity|split; [reflexivity|split; [|split]]].
      * split; [intros _; reflexivity|intros _; exists 1%Z; right; left; reflexivity].
      * intros c [H|[H|[]]]; [discriminate|]; injection H as <-; split; reflexivity.
      * discriminate.
Qed.

Lemma logs_prefix (L : list log_entry) (t : list event) :
  saved_paths (map Log L ++ t) = saved_paths t /\
  saved_items (map Log L ++ t) = saved_items t /\
  (forall c, In (Exit c) (map Log L ++ t) <-> In (Exit c) t).
Proof.
  induction L as [|e L IH]; simpl; [split; [|split]; reflexivity|].
  destruct IH as (I1 & I2 & I3); split; [exact I1|split; [exact I2|]].
  intros c; rewrite <- I3; split; [intros [H|H]; [discriminate|exact H]|intros H; right; exact H].
Qed.

(** The trace of a run on a loaded 3-D volume. *)
Lemma main_valid_shape (output_folder filepath filename : string) (p : Q)
    (invert_image : bool) (nf : nifti) (ok : string -> bool) sg cr ax :
  check_nifti_dimension (nifti_shape nf) = true -> nifti_fdata_error nf = None ->
  get_image_slices_data_np (nifti_fdata nf) = inl (sg, cr, ax) ->
  exists L, main output_folder filepath filename p invert_image (inl nf) ok
  = (Log (INFO, String.append "Loading nifti file - " filepath) ::
     map Log L ++ Log (INFO, msg_export) ::
     save_all ok (combine (mips_paths output_folder filename)
                   [fst (process_mips (mk_ndarray sg true) p invert_image);
                    fst (process_mips (mk_ndarray cr true) p invert_image);
                    fst (process_mips (mk_ndarray ax true) p invert_image)]))%list.
Proof.
  intros Hc He G; unfold main; rewrite Hc, He, G.
  destruct (process_mips (mk_ndarray sg true) p invert_image) as [i1 l1].
  destruct (process_mips (mk_ndarray cr true) p invert_image) as [i2 l2].
  destruct (process_mips (mk_ndarray ax true) p invert_image) as [i3 l3].
  exists (l1 ++ l2 ++ l3)%list; reflexivity.
Qed.

(** The runs that stop before the export step. *)
Lemma main_early_stop (output_folder filepath filename : string) (p : Q)
    (invert_image : bool) (load : nifti + load_error) (ok : string -> bool) :
  match load with
  | inr (ImageFileError d) =>
      main output_folder filepath filename p invert_image load ok
      = [Log (INFO, "Loading nifti file - " ++ filepath);
         Log (ERROR, "Error occured. Detail: " ++ d); Exit 1%Z]
  | inr (OtherLoadError d) =>
      main output_folder filepath filename p invert_image load ok
      = [Log (INFO, "Loading nifti file - " ++ filepath); Crash d]
  | inl nf =>
      (check_nifti_dimension (nifti_shape nf) = false ->
       main output_folder filepath filename p invert_image load ok
       = [Log (INFO, "Loading nifti file - " ++ filepath); Log (ERROR, msg_not_3d);
          Log (INFO, msg_exiting); Exit 1%Z]) /\
      (forall d, check_nifti_dimension (nifti_shape nf) = true ->
       nifti_fdata_error nf = Some d ->
       main output_folder filepath filename p invert_image load ok
       = [Log (INFO, "Loading nifti file - " ++ filepath); Crash d]) /\
      (forall e, check_nifti_dimension (nifti_shape nf) = true ->
       nifti_fdata_error nf = None ->
       get_image_slices_data_np (nifti_fdata nf) = inr e ->
       main output_folder filepath filename p invert_image load ok
       = [Log (INFO, "Loading nifti file - " ++ filepath); Crash (exn_message e)])
  end.
Proof.
  destruct load as [nf|[d|d]]; [|reflexivity|reflexivity].
  split; [|split].
  - intros Hc; unfold main; rewrite Hc; reflexivity.
  - intros d Hc He; unfold main; rewrite Hc, He; reflexivity.
  - intros e Hc He G; unfold main; rewrite Hc, He, G; reflexivity.
Qed.

(** X1. [main] calls [os.sys.exit] exactly when [nib.load] raises an
    [ImageFileError], when the shape check fails, or when the run reaches
    the export step (the data reads and no axis is empty) and one of the
    three writes fails; the exit status is always 1 and the exit is the
    last thing the run does. *)
Theorem main_exit_cases (output_folder filepath filename : string) (p : Q)
    (invert_image : bool) (load : nifti + load_error) (ok : string -> bool) :
  let tr := main output_folder filepath filename p invert_image load ok in
  ((exists c, In (Exit c) tr) <->
     match load with
     | inr (ImageFileError _) => True
     | inr (OtherLoadError _) => False
     | inl nf => check_nifti_dimension (nifti_shape nf) = false \/
                 (nifti_fdata_error nf = None /\
                  (exists s, get_image_slices_data_np (nifti_fdata nf) = inl s) /\
                  forallb ok (mips_paths output_folder filename) = false)
     end) /\
  (forall c, In (Exit c) tr -> c = 1%Z /\ last tr (Log (INFO, "")) = Exit 1%Z).
Proof.
  intros tr; subst tr.
  pose proof (main_early_stop output_folder filepath filename p invert_image load ok) as ES.
  destruct load as [nf|[d|d]].
  2:{ rewrite ES; split.
      - split; [intros _; exact I|intros _; exists 1%Z; right; right; left; reflexivity].
      - intros c [H|[H|[H|[]]]]; try discriminate; injection H as <-; split; reflexivity. }
  2:{ rewrite ES; split.
      - split; [intros [c [H|[H|[]]]]; discriminate|intros []].
      - intros c [H|[H|[]]]; discriminate. }
  destruct ES as (ES1 & ES2 & ES3).
  destruct (check_nifti_dimension (nifti_shape nf)) eqn:Hc.
  2:{ rewrite (ES1 eq_refl); split.
      - split; [intros _; left; reflexivity|intros _; exists 1%Z; simpl; tauto].
      - intros c H; simpl in H; destruct H as [H|[H|[H|[H|[]]]]]; try discriminate.
        injection H as <-; split; reflexivity. }
  destruct (nifti_fdata_error nf) as [d|] eqn:He.
  { rewrite (ES2 d eq_refl eq_refl); split.
    - split; [intros [c [H|[H|[]]]]; discriminate|].
      intros [H|[H _]]; discriminate.
    - intros c [H|[H|[]]]; discriminate. }
  destruct (get_image_slices_data_np (nifti_fdata nf)) as [[[sg cr] ax]|e] eqn:G.
  2:{ rewrite (ES3 e eq_refl eq_refl eq_refl); split.
      - split; [intros [c [H|[H|[]]]]; discriminate|].
        intros [H|(_ & [s Hs] & _)]; discriminate.
      - intros c [H|[H|[]]]; discriminate. }
  pose proof (main_valid_shape output_folder filepath filename p invert_image nf ok
                sg cr ax Hc He G) as M.
  destruct M as [L E]; rewrite E.
  set (items := combine (mips_paths output_folder filename) _).
  assert (Hf : map fst items = mips_paths output_folder filename) by reflexivity.
  destruct (save_all_spec ok items) as (_ & _ & S3 & S4 & _).
  destruct (logs_prefix L (Log (INFO, msg_export) :: save_all ok items)) as (_ & _ & P3).
  assert (HE : forall c, In (Exit c) (Log (INFO, String.append "Loading nifti file - " filepath) ::
                 (map Log L ++ Log (INFO, msg_export) :: save_all ok items))%list
               <-> In (Exit c) (save_all ok items)).
  { intros c; cbn [In]; rewrite P3; cbn [In]; split.
    - intros [H|[H|H]]; [discriminate|discriminate|exact H].
    - intros H; right; right; exact H. }
  split.
  - split.
    + intros [c H]; right; split; [reflexivity|split; [eauto|]].
      rewrite <- Hf; apply S3; exists c; apply HE; exact H.
    + intros [H|(_ & _ & H)]; [discriminate|]; rewrite <- Hf in H; apply S3 in H.
      destruct H as [c H]; exists c; apply HE; exact H.
  - intros c H; apply HE in H; destruct (S4 c H) as [Hc1 Hl]; split; [exact Hc1|].
    rewrite last_cons_ne by (destruct L; discriminate).
    rewrite last_app_cons; rewrite last_cons_ne by apply save_all_ne; exact Hl.
Qed.

(** The files a run writes, as a function of the load outcome. *)
Lemma main_saved_paths_eq (output_folder filepath filename : string) (p : Q)
    (invert_image : bool) (load : nifti + load_error) (ok : string -> bool) :
  saved_paths (main output_folder filepath filename p invert_image load ok)
  = match load with
    | inr _ => []
    | inl nf =>
        if check_nifti_dimension (nifti_shape nf) then
          match nifti_fdata_error nf with
          | Some _ => []
          | None =>
              match get_image_slices_data_np (nifti_fdata nf) with
              | inr _ => []
              | inl _ => take_ok ok (mips_paths output_folder filename)
              end
          end
        else []
    end.
Proof.
  pose proof (main_early_stop output_folder filepath filename p invert_image load ok) as ES.
  destruct load as [nf|[d|d]]; [|rewrite ES; reflexivity|rewrite ES; reflexivity].
  destruct ES as (ES1 & ES2 & ES3).
  destruct (check_nifti_dimension (nifti_shape nf)) eqn:Hc; [|rewrite (ES1 eq_refl); reflexivity].
  destruct (nifti_fdata_error nf) as [d|] eqn:He; [rewrite (ES2 d eq_refl eq_refl); reflexivity|].
  destruct (get_image_slices_data_np (nifti_fdata nf)) as [[[sg cr] ax]|e] eqn:G;
    [|rewrite (ES3 e eq_refl eq_refl eq_refl); reflexivity].
  destruct (main_valid_shape output_folder filepath filename p invert_image nf ok
              sg cr ax Hc He G) as [L E].
  rewrite E; cbn [saved_paths].
  rewrite (proj1 (logs_prefix _ _)); cbn [saved_paths].
  rewrite (proj1 (save_all_spec _ _)); reflexivity.
Qed.

(** X2. The files a run writes: none when [nib.load] raises, when the
    shape check fails, when [get_fdata] raises or when [np.amax] raises
    on an empty axis; otherwise the sagittal, coronal and axial paths in
    this order, up to (excluding) the first write that fails: earlier
    files stay on disk. *)
Theorem main_written_paths (output_folder filepath filename : string) (p : Q)
    (invert_image : bool) (load : nifti + load_error) (ok : string -> bool) :
  saved_paths (main output_folder filepath filename p invert_image load ok)
  = match load with
    | inr _ => []
    | inl nf =>
        if check_nifti_dimension (nifti_shape nf) then
          match nifti_fdata_error nf with
          | Some _ => []
          | None =>
              match get_image_slices_data_np (nifti_fdata nf) with
              | inr _ => []
              | inl _ => take_ok ok (mips_paths output_folder filename)
              end
          end
        else []
    end.
Proof. apply main_saved_paths_eq. Qed.

(** X3. On a run that reaches the export step (the volume passes the
    shape check, its data reads and the three [np.amax] calls return
    [(sg, cr, ax)]), the images written are, in order, the renderings by
    [process_mips] (with the run's percentile and invert flag) of [sg],
    [cr] and [ax], each under its own path, up to the first write that
    fails; when every write succeeds the run ends with the success log
    line and no exit. *)
Theorem main_written_images (output_folder filepath filename : string) (p : Q)
    (invert_image : bool) (nf : nifti) (ok : string -> bool) (sg cr ax : arr2) :
  check_nifti_dimension (nifti_shape nf) = true -> nifti_fdata_error nf = None ->
  get_image_slices_data_np (nifti_fdata nf) = inl (sg, cr, ax) ->
  let tr := main output_folder filepath filename p invert_image (inl nf) ok in
  let items := combine (mips_paths output_folder filename)
                 [fst (process_mips (mk_ndarray sg true) p invert_image);
                  fst (process_mips (mk_ndarray cr true) p invert_image);
                  fst (process_mips (mk_ndarray ax true) p invert_image)] in
  saved_items tr = firstn (length (take_ok ok (mips_paths output_folder filename))) items /\
  (forallb ok (mips_paths output_folder filename) = true ->
     saved_items tr = items /\ last tr (Log (INFO, "")) = Log (INFO, msg_success)).
Proof.
  intros Hc He G.
  destruct (main_valid_shape output_folder filepath filename p invert_image nf ok
              sg cr ax Hc He G) as [L E].
  intros tr items; subst tr; rewrite E; fold items.
  assert (Hf : map fst items = mips_paths output_folder filename) by reflexivity.
  destruct (save_all_spec ok items) as (_ & S2 & _ & _ & S5).
  rewrite Hf in S2, S5.
  cbn [saved_items]; rewrite (proj1 (proj2 (logs_prefix _ _))); cbn [saved_items].
  split; [exact S2|].
  intros Hall; split.
  - rewrite S2; unfold mips_paths in *; simpl in Hall |- *.
    destruct (ok _), (ok _), (ok _); try discriminate; reflexivity.
  - rewrite last_cons_ne by (destruct L; discriminate).
    rewrite last_app_cons; rewrite last_cons_ne by apply save_all_ne; exact (S5 Hall).
Qed.

Lemma main_written_images_witness :
  let nf := mk_nifti [PyInt 1; PyInt 2; PyInt 2] [[[1; 2]; [3; 4]]] None in
  let sg := [[1; 2]; [3; 4]] in
  let cr := [[3; 4]] in
  let ax := [[2; 4]] in
  (check_nifti_dimension (nifti_shape nf) = true /\ nifti_fdata_error nf = None /\
   get_image_slices_data_np (nifti_fdata nf) = inl (sg, cr, ax)) /\
  let tr := main "out" "in/a.nii" "a.nii" (197 # 2) true (inl nf) (fun _ => true) in
  let items := combine (mips_paths "out" "a.nii")
                 [fst (process_mips (mk_ndarray sg true) (197 # 2) true);
                  fst (process_mips (mk_ndarray cr true) (197 # 2) true);
                  fst (process_mips (mk_ndarray ax true) (197 # 2) true)] in
  saved_items tr = firstn (length (take_ok (fun _ => true) (mips_paths "out" "a.nii"))) items /\
  (forallb (fun _ => true) (mips_paths "out" "a.nii") = true ->
     saved_items tr = items /\ last tr (Log (INFO, "")) = Log (INFO, msg_success)).
Proof.
  intros nf sg cr ax.
  assert (Hc : check_nifti_dimension (nifti_shape nf) = true) by reflexivity.
  assert (He : nifti_fdata_error nf = None) by reflexivity.
  assert (G : get_image_slices_data_np (nifti_fdata nf) = inl (sg, cr, ax))
    by (vm_compute; reflexivity).
  split; [split; [exact Hc|split; [exact He|exact G]]|].
  exact (main_written_images "out" "in/a.nii" "a.nii" (197 # 2) true nf
           (fun _ => true) sg cr ax Hc He G).
Defined.

(** X11. An exception escapes [main] (no [os.sys.exit], a traceback)
    exactly when [nib.load] raises something other than an
    [ImageFileError] (e.g. [FileNotFoundError] for a missing file), or
    when the shape check passes and then [get_fdata] raises or one of
    the [np.amax] calls raises; such a run logs only the loading line,
    renders and writes nothing. *)
Theorem main_crash_cases (output_folder filepath filename : string) (p : Q)
    (invert_image : bool) (load : nifti + load_error) (ok : string -> bool) :
  let tr := main output_folder filepath filename p invert_image load ok in
  ((exists m, In (Crash m) tr) <->
     match load with
     | inr (ImageFileError _) => False
     | inr (OtherLoadError _) => True
     | inl nf => check_nifti_dimension (nifti_shape nf) = true /\
                 (nifti_fdata_error nf <> None \/
                  exists e, get_image_slices_data_np (nifti_fdata nf) = inr e)
     end) /\
  (forall m, In (Crash m) tr -> tr = [Log (INFO, "Loading nifti file - " ++ filepath); Crash m]).
Proof.
  intros tr; subst tr.
  pose proof (main_early_stop output_folder filepath filename p invert_image load ok) as ES.
  destruct load as [nf|[d|d]].
  2:{ rewrite ES; split.
      - split; [intros [m [H|[H|[H|[]]]]]; discriminate|intros []].
      - intros m [H|[H|[H|[]]]]; discriminate. }
  2:{ rewrite ES; split.
      - split; [intros _; exact I|intros _; exists d; right; left; reflexivity].
      - intros m [H|[H|[]]]; [discriminate|]; injection H as <-; reflexivity. }
  destruct ES as (ES1 & ES2 & ES3).
  destruct (check_nifti_dimension (nifti_shape nf)) eqn:Hc.
  2:{ rewrite (ES1 eq_refl); split.
      - split; [intros [m H]; simpl in H; destruct H as [H|[H|[H|[H|[]]]]]; discriminate|].
        intros [H _]; discriminate.
      - intros m H; simpl in H; destruct H as [H|[H|[H|[H|[]]]]]; discriminate. }
  destruct (nifti_fdata_error nf) as [d|] eqn:He.
  { rewrite (ES2 d eq_refl eq_refl); split.
    - split; [intros _; split; [reflexivity|left; discriminate]|].
      intros _; exists d; right; left; reflexivity.
    - intros m [H|[H|[]]]; [discriminate|]; injection H as <-; reflexivity. }
  destruct (get_image_slices_data_np (nifti_fdata nf)) as [[[sg cr] ax]|e] eqn:G.
  2:{ rewrite (ES3 e eq_refl eq_refl eq_refl); split.
      - split; [intros _; split; [reflexivity|right; exists e; reflexivity]|].
        intros _; exists (exn_message e); right; left; reflexivity.
      - intros m [H|[H|[]]]; [discriminate|]; injection H as <-; reflexivity. }
  destruct (main_valid_shape output_folder filepath filename p invert_image nf ok
              sg cr ax Hc He G) as [L E].
  rewrite E.
  set (items := combine (mips_paths output_folder filename) _).
  assert (NC : forall m, ~ In (Crash m) (Log (INFO, String.append "Loading nifti file - " filepath) ::
                 (map Log L ++ Log (INFO, msg_export) :: save_all ok items))%list).
  { intros m H; cbn [In] in H; destruct H as [H|H]; [discriminate|].
    apply in_app_iff in H; destruct H as [H|H].
    - apply in_map_iff in H; destruct H as (x & H & _); discriminate.
    - destruct H as [H|H]; [discriminate|].
      clear E; induction items as [|[q img] items IH]; simpl in H.
      + destruct H as [H|[]]; discriminate.
      + destruct (ok q); simpl in H.
        * destruct H as [H|H]; [discriminate|exact (IH H)].
        * destruct H as [H|[H|[]]]; discriminate. }
  split.
  - split; [intros [m H]; destruct (NC m H)|].
    intros [_ [H|[e' H]]]; [congruence|discriminate].
  - intros m H; destruct (NC m H).
Qed.

(** X12. A volume that passes the shape check and reads but has an
    empty axis (e.g. shape [(0, 4, 4)]) makes the first [np.amax] over
    that axis raise [ValueError]: the exception escapes [main] right
    after the loading line, and nothing is written. *)
Theorem main_zero_size_crash (output_folder filepath filename : string) (p : Q)
    (invert_image : bool) (nf : nifti) (ok : string -> bool) (X Y Z : nat) :
  check_nifti_dimension (nifti_shape nf) = true -> nifti_fdata_error nf = None ->
  shape3b (nifti_fdata nf) X Y Z = true -> (X = 0 \/ Y = 0 \/ Z = 0)%nat ->
  main output_folder filepath filename p invert_image (inl nf) ok
  = [Log (INFO, "Loading nifti file - " ++ filepath); Crash msg_amax_empty].
Proof.
  intros Hc He Hs H0.
  assert (G : get_image_slices_data_np (nifti_fdata nf) = inr (ValueError msg_amax_empty)).
  { apply shape3b_spec in Hs; destruct Hs as [L F].
    unfold get_image_slices_data_np, np_amax3, axis_len.
    destruct (nifti_fdata nf) as [|pl v]; [reflexivity|].
    apply Forall_cons_iff in F; destruct F as [[Lp Fp] _].
    destruct (Nat.eqb_spec (length (pl :: v)) 0) as [E0|E0]; [reflexivity|].
    cbn [hd]; destruct pl as [|row pl]; [reflexivity|].
    apply Forall_cons_iff in Fp; destruct Fp as [Lr _].
    destruct (Nat.eqb_spec (length (row :: pl)) 0) as [E1|E1]; [reflexivity|].
    cbn [hd]; destruct (Nat.eqb_spec (length row) 0) as [E2|E2]; [reflexivity|].
    exfalso; simpl in L, Lp; lia. }
  pose proof (main_early_stop output_folder filepath filename p invert_image (inl nf) ok) as ES.
  destruct ES as (_ & _ & ES3); exact (ES3 _ Hc He G).
Qed.

Lemma main_zero_size_crash_witness :
  let nf := mk_nifti [PyInt 0; PyInt 4; PyInt 4] [] None in
  (check_nifti_dimension (nifti_shape nf) = true /\ nifti_fdata_error nf = None /\
   shape3b (nifti_fdata nf) 0 4 4 = true /\ (0 = 0 \/ 4 = 0 \/ 4 = 0)%nat) /\
  main "out" "in/empty.nii" "empty.nii" (197 # 2) true (inl nf) (fun _ => true)
  = [Log (INFO, "Loading nifti file - " ++ "in/empty.nii"); Crash msg_amax_empty].
Proof.
  intros nf.
  assert (Hc : check_nifti_dimension (nifti_shape nf) = true) by reflexivity.
  assert (He : nifti_fdata_error nf = None) by reflexivity.
  assert (Hs : shape3b (nifti_fdata nf) 0 4 4 = true) by reflexivity.
  assert (H0 : (0 = 0 \/ 4 = 0 \/ 4 = 0)%nat) by (left; reflexivity).
  split; [split; [exact Hc|split; [exact He|split; [exact Hs|exact H0]]]|].
  exact (main_zero_size_crash "out" "in/empty.nii" "empty.nii" (197 # 2) true nf
           (fun _ => true) 0 4 4 Hc He Hs H0).
Defined.

(** ** The clipper: bounds, constant and read-only arrays *)

(** A successful percentile lies between two elements of the array. *)
Lemma percentile_between (a : arr2) q h :
  percentile a q = inl h ->
  exists x y, In x (concat a) /\ In y (concat a) /\ x <= h /\ h <= y.
Proof.
  unfold percentile.
  destruct (Qle_bool 0 q && Qle_bool q 100) eqn:E; [|discriminate].
  apply andb_true_iff in E; destruct E as [E0 E1]; apply Qle_bool_iff in E0, E1.
  destruct (concat a) as [|x0 t] eqn:Ec; [discriminate|].
  intros Eh; injection Eh as <-; rewrite percentile_sorted_interp.
  set (s := QSort.sort (x0 :: t)).
  assert (Hp : Permutation (x0 :: t) s) by apply QSort.Permuted_sort.
  assert (Hn : (length s > 0)%nat) by (rewrite <- (Permutation_length Hp); simpl; lia).
  assert (HN : 0 <= inject_Z (Z.of_nat (length s) - 1)).
  { change 0 with (inject_Z 0); rewrite <- Zle_Qle; lia. }
  set (v := q / 100 * inject_Z (Z.of_nat (length s) - 1)).
  assert (Hv0 : 0 <= v) by (apply Qmult_le_0_compat; [apply Qle_shift_div_l; lra|exact HN]).
  assert (Hv1 : v <= inject_Z (Z.of_nat (length s) - 1)).
  { unfold v; rewrite <- (Qmult_1_l (inject_Z _)) at 2.
    apply Qmult_le_compat_r; [apply Qle_shift_div_r; lra|exact HN]. }
  pose proof (floor_range v _ Hv0 Hv1) as Fr.
  destruct (interp_bounds s v (sort_strongly_sorted _) Hv0 Hv1) as [B1 B2].
  do 2 eexists; split; [|split; [|split; [exact B1|exact B2]]];
    apply (Permutation_in _ (Permutation_sym Hp)), nth_In; lia.
Qed.

Lemma clip_body_ok_inv (p : Q) (a a' : ndarray) (u : unit) :
  clip_body p a = (inl u, a') ->
  exists low high,
    percentile (nd_data a) p = inl high /\
    percentile (nd_data a) (100 - p) = inl low /\
    nd_writeable a = true /\
    a' = mk_ndarray (map (map (clip_then low high)) (nd_data a)) true.
Proof.
  unfold clip_body, np_bind, np_percentile, setitem_where; cbn [nd_data nd_writeable].
  destruct (percentile (nd_data a) p) as [high|e1] eqn:Eh; [|congruence].
  destruct (percentile (nd_data a) (100 - p)) as [low|e2] eqn:El; [|congruence].
  destruct (nd_writeable a) eqn:W; [|congruence].
  cbn [nd_data nd_writeable]; intros E; injection E as E; subst a'.
  exists low, high; split; [reflexivity|split; [reflexivity|split; [reflexivity|]]].
  f_equal; rewrite map_map; apply map_ext; intros row; rewrite map_map;
    apply map_ext; intros e; reflexivity.
Qed.

Lemma clip_then_cases low high e :
  clip_then low high e = low \/ clip_then low high e = high \/ clip_then low high e = e.
Proof. unfold clip_then; destruct (qltb e low), (qltb high _); auto. Qed.

(** What the clipper returns: the input data, or both percentiles
    succeeded and every element went through the two assignments. *)
Lemma clipper_out_cases (image_data : ndarray) (p : Q) :
  nd_data (fst (set_min_max_threshold_value image_data p)) = nd_data image_data \/
  exists low high, percentile (nd_data image_data) p = inl high /\
    percentile (nd_data image_data) (100 - p) = inl low /\
    nd_data (fst (set_min_max_threshold_value image_data p))
    = map (map (clip_then low high)) (nd_data image_data).
Proof.
  unfold set_min_max_threshold_value.
  destruct (clip_body p image_data) as [[u|e] a'] eqn:E.
  - right; destruct (clip_body_ok_inv _ _ _ _ E) as (low & high & H1 & H2 & _ & ->).
    exists low, high; auto.
  - left; rewrite (clip_body_error_unchanged _ _ _ _ E); destruct e; reflexivity.
Qed.

Lemma clipper_out_lengths (image_data : ndarray) (p : Q) :
  map (@length Q) (nd_data (fst (set_min_max_threshold_value image_data p)))
  = map (@length Q) (nd_data image_data).
Proof.
  destruct (clipper_out_cases image_data p) as [-> | (low & high & _ & _ & ->)];
    [reflexivity|].
  rewrite map_map; apply map_ext; intros row; apply length_map.
Qed.

Lemma shape2b_lengths (a b : arr2) r c :
  map (@length Q) a = map (@length Q) b -> shape2b a r c = shape2b b r c.
Proof.
  unfold shape2b; intros E.
  rewrite <- (length_map (@length Q) a), <- (length_map (@length Q) b), E; f_equal.
  revert b E; induction a as [|x t IH]; intros [|y u] E; try discriminate; [reflexivity|].
  injection E as E1 E2; cbn [forallb]; rewrite E1, (IH u E2); reflexivity.
Qed.

(** X4. Whatever the percentile and the array, the clipper returns an
    array of the same shape whose every element lies between the input's
    minimum and maximum. *)
Theorem clipper_shape_and_range (image_data : ndarray) (p : Q) :
  let out := nd_data (fst (set_min_max_threshold_value image_data p)) in
  map (@length Q) out = map (@length Q) (nd_data image_data) /\
  (forall x, In x (concat out) ->
     amin_all (nd_data image_data) <= x /\ x <= amax_all (nd_data image_data)).
Proof.
  intros out; split; [apply clipper_out_lengths|].
  destruct (clipper_out_cases image_data p) as [Hout | (low & high & Eh & El & Hout)];
    unfold out; rewrite Hout.
  - intros x Hx; apply amin_amax_bounds; exact Hx.
  - intros x Hx; apply in_concat in Hx; destruct Hx as (r & Hr & Hx).
    apply in_map_iff in Hr; destruct Hr as (row & <- & Hrow).
    apply in_map_iff in Hx; destruct Hx as (e & <- & He).
    destruct (percentile_between _ _ _ Eh) as (x1 & y1 & Hx1 & Hy1 & H1 & H2).
    destruct (percentile_between _ _ _ El) as (x2 & y2 & Hx2 & Hy2 & H3 & H4).
    apply amin_amax_bounds in Hx1, Hy1, Hx2, Hy2.
    assert (Be : amin_all (nd_data image_data) <= e <= amax_all (nd_data image_data))
      by (apply amin_amax_bounds, in_concat; eauto).
    destruct (clip_then_cases low high e) as [C|[C|C]]; rewrite C; lra.
Qed.

Lemma percentile_constant (a : arr2) (c q h : Q) :
  Forall (fun e => e == c) (concat a) -> percentile a q = inl h -> h == c.
Proof.
  intros Hc Eh; destruct (percentile_between _ _ _ Eh) as (x & y & Hx & Hy & H1 & H2).
  rewrite Forall_forall in Hc; apply Hc in Hx, Hy; lra.
Qed.

(** X5. On a non-empty writeable array whose elements all equal one value
    [c], a percentile in [[0, 100]] leaves every element as it is and only
    the info message is logged. *)
Theorem clipper_constant_unchanged (data : arr2) (c p : Q) :
  Forall (fun e => e == c) (concat data) -> concat data <> [] -> 0 <= p <= 100 ->
  set_min_max_threshold_value (mk_ndarray data true) p
  = (mk_ndarray data true, [(INFO, msg_threshold)]).
Proof.
  intros Hc Hn Hp.
  destruct (percentile_ok data p Hn Hp) as [high Eh].
  destruct (percentile_ok data (100 - p) Hn) as [low El]; [lra|].
  pose proof (percentile_constant _ _ _ _ Hc Eh) as Ch.
  pose proof (percentile_constant _ _ _ _ Hc El) as Cl.
  rewrite (clipper_valid_run data p low high Eh El); do 3 f_equal.
  rewrite <- (map_id data) at 2; apply map_ext_in; intros row Hrow.
  rewrite <- (map_id row) at 2; apply map_ext_in; intros e He.
  rewrite Forall_forall in Hc; assert (Ce : e == c) by (apply Hc, in_concat; eauto).
  unfold clip_then.
  replace (qltb e low) with false by (symmetry; apply qltb_false; lra).
  replace (qltb high e) with false by (symmetry; apply qltb_false; lra).
  reflexivity.
Qed.

Lemma clipper_constant_unchanged_witness :
  Forall (fun e => e == 7) (concat [[7; 7]; [7; 7]]) /\ concat [[7; 7]; [7; 7]] <> [] /\
  0 <= 90 <= 100 /\
  set_min_max_threshold_value (mk_ndarray [[7; 7]; [7; 7]] true) 90
  = (mk_ndarray [[7; 7]; [7; 7]] true, [(INFO, msg_threshold)]).
Proof.
  assert (Hc : Forall (fun e => e == 7) (concat [[7; 7]; [7; 7]]))
    by (repeat constructor).
  assert (Hn : concat [[7; 7]; [7; 7]] <> []) by discriminate.
  assert (Hp : 0 <= 90 <= 100) by (split; vm_compute; discriminate).
  split; [exact Hc|split; [exact Hn|split; [exact Hp|]]].
  apply (clipper_constant_unchanged _ 7 _ Hc Hn Hp).
Defined.

(** X6. On a non-empty read-only array, a percentile in [[0, 100]] does not
    change the array, and the error logged is the percentile-range message,
    although the percentile was valid: the [ValueError] comes from the
    masked assignment, and the handler does not tell the two apart. *)
Theorem clipper_read_only (image_data : ndarray) (p : Q) :
  nd_writeable image_data = false -> concat (nd_data image_data) <> [] -> 0 <= p <= 100 ->
  set_min_max_threshold_value image_data p
  = (image_data, [(INFO, msg_threshold); (ERROR, msg_percentile_range)]).
Proof.
  intros W Hn Hp.
  destruct (percentile_ok _ p Hn Hp) as [high Eh].
  destruct (percentile_ok _ (100 - p) Hn) as [low El]; [lra|].
  unfold set_min_max_threshold_value, clip_body, np_bind, np_percentile, setitem_where.
  rewrite Eh, El, W; reflexivity.
Qed.

Lemma clipper_read_only_witness :
  nd_writeable (mk_ndarray [[1; 2]; [3; 4]] false) = false /\
  concat (nd_data (mk_ndarray [[1; 2]; [3; 4]] false)) <> [] /\ 0 <= 98 <= 100 /\
  set_min_max_threshold_value (mk_ndarray [[1; 2]; [3; 4]] false) 98
  = (mk_ndarray [[1; 2]; [3; 4]] false,
     [(INFO, msg_threshold); (ERROR, msg_percentile_range)]).
Proof.
  assert (W : nd_writeable (mk_ndarray [[1; 2]; [3; 4]] false) = false) by reflexivity.
  assert (Hn : concat (nd_data (mk_ndarray [[1; 2]; [3; 4]] false)) <> []) by discriminate.
  assert (Hp : 0 <= 98 <= 100) by (split; vm_compute; discriminate).
  split; [exact W|split; [exact Hn|split; [exact Hp|]]].
  apply (clipper_read_only _ _ W Hn Hp).
Defined.

(** ** The renderer: size and pixel range *)

Lemma rotate90_pixel (img : image) (P : option Z -> Prop) x y :
  length (im_px img) = im_h img ->
  Forall (fun row => length row = im_w img) (im_px img) ->
  (forall row o, In row (im_px img) -> In o row -> P o) -> P (Some 0%Z) ->
  (x < im_w img)%nat -> (y < im_h img)%nat -> P (pixel (rotate90 img) x y).
Proof.
  intros Hh Hw Hall H0 Hx Hy.
  unfold pixel at 1, rotate90; cbn [im_px].
  rewrite (nth_map_lt _ _ _ 0%nat) by (rewrite length_seq; exact Hy).
  rewrite (nth_map_lt _ _ _ 0%nat) by (rewrite length_seq; exact Hx).
  rewrite !seq_nth by assumption; cbn [Nat.add].
  unfold rotate_src.
  set (xin := ((Z.of_nat (im_w img) + Z.of_nat (im_h img) - 2 * Z.of_nat y - 1) / 2)%Z).
  set (yin := ((Z.of_nat (im_h img) - Z.of_nat (im_w img) + 2 * Z.of_nat x + 1) / 2)%Z).
  destruct ((0 <=? xin)%Z && (xin <? Z.of_nat (im_w img))%Z &&
            (0 <=? yin)%Z && (yin <? Z.of_nat (im_h img))%Z) eqn:C; [|exact H0].
  repeat rewrite andb_true_iff in C; rewrite !Z.leb_le, !Z.ltb_lt in C.
  assert (Yl : (Z.to_nat yin < length (im_px img))%nat) by lia.
  apply (Hall (nth (Z.to_nat yin) (im_px img) [])); [apply nth_In; exact Yl|].
  apply nth_In; rewrite (proj1 (Forall_nth_len _ _ [] ) Hw _ Yl); lia.
Qed.

Lemma process_mips_pixels_gen (image_data : ndarray) (p : Q) (invert_image : bool) (r c : nat) :
  shape2b (nd_data image_data) r c = true -> (0 < r)%nat ->
  amin_all (nd_data (fst (set_min_max_threshold_value image_data p)))
  < amax_all (nd_data (fst (set_min_max_threshold_value image_data p))) ->
  let img := fst (process_mips image_data p invert_image) in
  im_w img = c /\ im_h img = r /\
  forall x y, (x < c)%nat -> (y < r)%nat ->
    exists z, pixel img x y = Some z /\ (0 <= z <= 255)%Z.
Proof.
  intros Hs Hr Hlt img; unfold img; rewrite process_mips_steps.
  set (out := nd_data (fst (set_min_max_threshold_value image_data p))) in *.
  assert (So : shape2b out r c = true)
    by (unfold out; rewrite (shape2b_lengths _ _ r c (clipper_out_lengths image_data p)); exact Hs).
  apply shape2b_spec in So; destruct So as [Lo Fo].
  set (sv := scale_values out).
  assert (Ls : length sv = r) by (unfold sv; rewrite scale_values_eq, length_map; exact Lo).
  assert (Fs : Forall (fun row => length row = c) sv).
  { unfold sv; rewrite scale_values_eq, Forall_map.
    eapply Forall_impl; [|exact Fo]; intros row Hrow; rewrite length_map; exact Hrow. }
  assert (Rs : forall row o, In row sv -> In o row ->
                 exists z, o = Some z /\ (0 <= z <= 255)%Z).
  { intros row o Hrow Ho; unfold sv in Hrow; rewrite scale_values_eq in Hrow.
    apply in_map_iff in Hrow; destruct Hrow as (rw & <- & Hrw).
    apply in_map_iff in Ho; destruct Ho as (e & <- & He).
    assert (Hb : amin_all out <= e <= amax_all out)
      by (apply amin_amax_bounds, in_concat; eauto).
    destruct (scale_value_spec _ _ e Hlt Hb) as [E R]; eauto. }
  assert (Wf : im_w (fromarray sv) = c).
  { unfold fromarray; cbn [im_w]; destruct sv as [|row t]; [cbn in Ls; lia|].
    inversion Fs; assumption. }
  set (im := if invert_image then invert (fromarray sv) else fromarray sv).
  assert (Wi : im_w im = c) by (unfold im; destruct invert_image; exact Wf).
  assert (Hi : im_h im = r) by (unfold im; destruct invert_image; exact Ls).
  assert (Li : length (im_px im) = im_h im).
  { unfold im; destruct invert_image; cbn; [rewrite length_map|]; reflexivity. }
  assert (Fi : Forall (fun row => length row = im_w im) (im_px im)).
  { rewrite Wi; unfold im; destruct invert_image; cbn [invert fromarray im_px]; [|exact Fs].
    rewrite Forall_map; eapply Forall_impl; [|exact Fs].
    intros row Hrow; rewrite length_map; exact Hrow. }
  assert (Ri : forall row o, In row (im_px im) -> In o row ->
                 exists z, o = Some z /\ (0 <= z <= 255)%Z).
  { unfold im; destruct invert_image; cbn [invert fromarray im_px]; [|exact Rs].
    intros row o Hrow Ho.
    apply in_map_iff in Hrow; destruct Hrow as (rw & <- & Hrw).
    apply in_map_iff in Ho; destruct Ho as (o' & <- & Ho').
    destruct (Rs rw o' Hrw Ho') as (z & -> & Hz).
    exists (255 - z)%Z; split; [reflexivity|lia]. }
  cbn [rotate90 im_w im_h]; split; [exact Wi|split; [exact Hi|]].
  intros x y Hx Hy.
  apply (rotate90_pixel im (fun o => exists z, o = Some z /\ (0 <= z <= 255)%Z));
    try assumption; try lia.
  exists 0%Z; split; [reflexivity|lia].
Qed.

(** X7. For a projection of shape [(r, c)] with [r > 0] whose clipped
    data is not constant, the image [process_mips] returns is [c] wide
    and [r] high, and every one of its pixels is defined and in
    [[0, 255]], inverted or not. *)
Theorem process_mips_pixels (image_data : ndarray) (p : Q) (invert_image : bool) (r c : nat) :
  shape2b (nd_data image_data) r c = true -> (0 < r)%nat ->
  amin_all (nd_data (fst (set_min_max_threshold_value image_data p)))
  < amax_all (nd_data (fst (set_min_max_threshold_value image_data p))) ->
  let img := fst (process_mips image_data p invert_image) in
  im_w img = c /\ im_h img = r /\
  forall x y, (x < c)%nat -> (y < r)%nat ->
    exists z, pixel img x y = Some z /\ (0 <= z <= 255)%Z.
Proof.
  intros Hs Hr Hlt; exact (process_mips_pixels_gen image_data p invert_image r c Hs Hr Hlt).
Qed.

Lemma process_mips_pixels_witness :
  let a := mk_ndarray [[1; 2; 3]; [4; 5; 6]] true in
  (shape2b (nd_data a) 2 3 = true /\ (0 < 2)%nat /\
   amin_all (nd_data (fst (set_min_max_threshold_value a 90)))
   < amax_all (nd_data (fst (set_min_max_threshold_value a 90)))) /\
  let img := fst (process_mips a 90 true) in
  im_w img = 3%nat /\ im_h img = 2%nat /\
  forall x y, (x < 3)%nat -> (y < 2)%nat ->
    exists z, pixel img x y = Some z /\ (0 <= z <= 255)%Z.
Proof.
  intros a.
  assert (Hs : shape2b (nd_data a) 2 3 = true) by reflexivity.
  assert (Hr : (0 < 2)%nat) by lia.
  assert (Hlt : amin_all (nd_data (fst (set_min_max_threshold_value a 90)))
                < amax_all (nd_data (fst (set_min_max_threshold_value a 90))))
    by (vm_compute; reflexivity).
  split; [split; [exact Hs|split; [exact Hr|exact Hlt]]|].
  exact (process_mips_pixels a 90 true 2 3 Hs Hr Hlt).
Defined.

(** ** The three projections and the volume's maximum *)

Lemma list_max_in_ge (l : list Q) :
  l <> [] -> In (list_max l) l /\ (forall x, In x l -> x <= list_max l).
Proof.
  destruct l as [|a t]; [congruence|]; intros _; unfold list_max; simpl.
  destruct (fold_qmax_spec t a) as (H1 & H2 & H3).
  split; [destruct H3 as [->|H3]; auto|].
  intros x [<-|Hx]; auto.
Qed.

Lemma list_max_eq_of (l1 l2 : list Q) :
  l1 <> [] -> l2 <> [] ->
  (forall x, In x l1 -> exists y, In y l2 /\ x <= y) ->
  (forall y, In y l2 -> exists x, In x l1 /\ y <= x) ->
  list_max l1 == list_max l2.
Proof.
  intros N1 N2 A B.
  destruct (list_max_in_ge l1 N1) as [I1 G1]; destruct (list_max_in_ge l2 N2) as [I2 G2].
  destruct (A _ I1) as (y & Hy & Ly); destruct (B _ I2) as (x & Hx & Lx).
  apply Qle_antisym; [apply (Qle_trans _ y); auto|apply (Qle_trans _ x); auto].
Qed.

Lemma concat2_idx (a : arr2) r c x :
  shape2b a r c = true -> In x (concat a) ->
  exists i j, (i < r)%nat /\ (j < c)%nat /\ get2 a i j = x.
Proof.
  intros Hs Hx; apply shape2b_spec in Hs; destruct Hs as [L F].
  apply in_concat in Hx; destruct Hx as (row & Hrow & Hx).
  rewrite Forall_forall in F; pose proof (F _ Hrow) as Lr.
  apply (In_nth _ _ []) in Hrow; destruct Hrow as (i & Hi & Ei).
  apply (In_nth _ _ 0) in Hx; destruct Hx as (j & Hj & Ej).
  exists i, j; unfold get2; rewrite Ei; split; [lia|split; [lia|exact Ej]].
Qed.

Lemma get2_in_shape (a : arr2) r c i j :
  shape2b a r c = true -> (i < r)%nat -> (j < c)%nat -> In (get2 a i j) (concat a).
Proof.
  intros Hs Hi Hj; apply shape2b_spec in Hs; destruct Hs as [L F].
  apply get2_in_concat; rewrite (proj1 (Forall_nth_len _ _ []) F i) by lia; exact Hj.
Qed.

Lemma concat3_idx (v : arr3) X Y Z y :
  shape3b v X Y Z = true -> In y (concat (concat v)) ->
  exists i j k, (i < X)%nat /\ (j < Y)%nat /\ (k < Z)%nat /\ get3 v i j k = y.
Proof.
  intros Hs Hy; apply shape3b_spec in Hs; destruct Hs as [L F].
  apply in_concat in Hy; destruct Hy as (row & Hrow & Hy).
  apply in_concat in Hrow; destruct Hrow as (pl & Hpl & Hrow).
  rewrite Forall_forall in F; destruct (F _ Hpl) as [Lp Fp].
  rewrite Forall_forall in Fp; pose proof (Fp _ Hrow) as Lr.
  apply (In_nth _ _ []) in Hpl; destruct Hpl as (i & Hi & Ei).
  apply (In_nth _ _ []) in Hrow; destruct Hrow as (j & Hj & Ej).
  apply (In_nth _ _ 0) in Hy; destruct Hy as (k & Hk & Ek).
  exists i, j, k; unfold get3; rewrite Ei, Ej.
  split; [lia|split; [lia|split; [lia|exact Ek]]].
Qed.

Lemma get3_in_shape (v : arr3) X Y Z i j k :
  shape3b v X Y Z = true -> (i < X)%nat -> (j < Y)%nat -> (k < Z)%nat ->
  In (get3 v i j k) (concat (concat v)).
Proof.
  intros Hs Hi Hj Hk; apply shape3b_spec in Hs; destruct Hs as [L F].
  destruct (proj1 (Forall_nth_len _ _ []) F i) as [Lp Fp]; [lia|].
  apply in_concat; exists (nth j (nth i v []) []); split.
  - apply in_concat; exists (nth i v []); split; apply nth_In; lia.
  - apply nth_In; rewrite (proj1 (Forall_nth_len _ _ []) Fp j) by lia; exact Hk.
Qed.

(** A 2-D array each of whose elements is one of the volume's values and
    which dominates every value of the volume has the volume's maximum. *)
Lemma proj_max_eq (P : arr2) r c (v : arr3) X Y Z :
  shape2b P r c = true -> shape3b v X Y Z = true ->
  (0 < r)%nat -> (0 < c)%nat -> (0 < X)%nat -> (0 < Y)%nat -> (0 < Z)%nat ->
  (forall a b, (a < r)%nat -> (b < c)%nat ->
     exists i j k, (i < X)%nat /\ (j < Y)%nat /\ (k < Z)%nat /\ get3 v i j k = get2 P a b) ->
  (forall i j k, (i < X)%nat -> (j < Y)%nat -> (k < Z)%nat ->
     exists a b, (a < r)%nat /\ (b < c)%nat /\ get3 v i j k <= get2 P a b) ->
  amax_all P == list_max (concat (concat v)).
Proof.
  intros SP Sv Hr Hc HX HY HZ A B; unfold amax_all.
  apply list_max_eq_of.
  - pose proof (get2_in_shape P r c 0 0 SP Hr Hc) as I; destruct (concat P); [destruct I|discriminate].
  - pose proof (get3_in_shape v X Y Z 0 0 0 Sv HX HY HZ) as I;
      destruct (concat (concat v)); [destruct I|discriminate].
  - intros x Hx; destruct (concat2_idx P r c x SP Hx) as (a & b & Ha & Hb & <-).
    destruct (A a b Ha Hb) as (i & j & k & Hi & Hj & Hk & E).
    exists (get2 P a b); split; [rewrite <- E; eapply get3_in_shape; eauto|apply Qle_refl].
  - intros y Hy; destruct (concat3_idx v X Y Z y Sv Hy) as (i & j & k & Hi & Hj & Hk & <-).
    destruct (B i j k Hi Hj Hk) as (a & b & Ha & Hb & L).
    exists (get2 P a b); split; [eapply get2_in_shape; eauto|exact L].
Qed.

(** X8. For a volume of shape [(X, Y, Z)] (positive sizes), the sagittal,
    coronal and axial projections all have the volume's maximum as their
    maximum. *)
Theorem projections_share_max (v : arr3) (X Y Z : nat) :
  (0 < X)%nat -> (0 < Y)%nat -> (0 < Z)%nat -> shape3b v X Y Z = true ->
  let '(sagittal, coronal, axial) := get_image_slices_data v in
  amax_all sagittal == list_max (concat (concat v)) /\
  amax_all coronal == list_max (concat (concat v)) /\
  amax_all axial == list_max (concat (concat v)).
Proof.
  intros HX HY HZ Hs; unfold get_image_slices_data; cbv beta iota zeta.
  destruct (amax_axis0_spec v X Y Z HX HY HZ Hs) as [S0 M0].
  destruct (amax_axis1_spec v X Y Z HX HY HZ Hs) as [S1 M1].
  destruct (amax_axis2_spec v X Y Z HX HY HZ Hs) as [S2 M2].
  split; [|split].
  - apply (proj_max_eq _ Y Z v X Y Z S0 Hs HY HZ HX HY HZ).
    + intros j k Hj Hk; destruct (proj2 (M0 j k Hj Hk)) as (i & Hi & E); eauto 8.
    + intros i j k Hi Hj Hk; exists j, k; split; [exact Hj|split; [exact Hk|]].
      apply (proj1 (M0 j k Hj Hk)); exact Hi.
  - apply (proj_max_eq _ X Z v X Y Z S1 Hs HX HZ HX HY HZ).
    + intros i k Hi Hk; destruct (proj2 (M1 i k Hi Hk)) as (j & Hj & E); eauto 8.
    + intros i j k Hi Hj Hk; exists i, k; split; [exact Hi|split; [exact Hk|]].
      apply (proj1 (M1 i k Hi Hk)); exact Hj.
  - apply (proj_max_eq _ X Y v X Y Z S2 Hs HX HY HX HY HZ).
    + intros i j Hi Hj; destruct (proj2 (M2 i j Hi Hj)) as (k & Hk & E); eauto 8.
    + intros i j k Hi Hj Hk; exists i, j; split; [exact Hi|split; [exact Hj|]].
      apply (proj1 (M2 i j Hi Hj)); exact Hk.
Qed.

Lemma projections_share_max_witness :
  let v := [[[1;5;2;0];[3;3;3;3];[0;9;1;1]]; [[4;1;7;2];[2;8;0;6];[5;5;5;5]]] in
  ((0 < 2)%nat /\ (0 < 3)%nat /\ (0 < 4)%nat /\ shape3b v 2 3 4 = true) /\
  let '(sagittal, coronal, axial) := get_image_slices_data v in
  amax_all sagittal == list_max (concat (concat v)) /\
  amax_all coronal == list_max (concat (concat v)) /\
  amax_all axial == list_max (concat (concat v)).
Proof.
  intros v.
  assert (HX : (0 < 2)%nat) by lia.
  assert (HY : (0 < 3)%nat) by lia.
  assert (HZ : (0 < 4)%nat) by lia.
  assert (Hs : shape3b v 2 3 4 = true) by reflexivity.
  split; [split; [exact HX|split; [exact HY|split; [exact HZ|exact Hs]]]|].
  exact (projections_share_max v 2 3 4 HX HY HZ Hs).
Defined.

(** ** End to end: the images [main] writes *)

Lemma main_saved_items_ok (output_folder filepath filename : string) (p : Q)
    (invert_image : bool) (nf : nifti) (ok : string -> bool) sg cr ax :
  check_nifti_dimension (nifti_shape nf) = true -> nifti_fdata_error nf = None ->
  get_image_slices_data_np (nifti_fdata nf) = inl (sg, cr, ax) ->
  forallb ok (mips_paths output_folder filename) = true ->
  saved_items (main output_folder filepath filename p invert_image (inl nf) ok)
  = combine (mips_paths output_folder filename)
      [fst (process_mips (mk_ndarray sg true) p invert_image);
       fst (process_mips (mk_ndarray cr true) p invert_image);
       fst (process_mips (mk_ndarray ax true) p invert_image)].
Proof.
  intros Hc He G Hall.
  destruct (main_valid_shape output_folder filepath filename p invert_image nf ok
              sg cr ax Hc He G) as [L E].
  rewrite E.
  set (items := combine (mips_paths output_folder filename) _).
  assert (Hf : map fst items = mips_paths output_folder filename) by reflexivity.
  destruct (save_all_spec ok items) as (_ & S2 & _ & _ & _).
  rewrite Hf in S2.
  cbn [saved_items]; rewrite (proj1 (proj2 (logs_prefix _ _))); cbn [saved_items].
  rewrite S2; unfold mips_paths in *; simpl in Hall |- *.
  destruct (ok _), (ok _), (ok _); try discriminate; reflexivity.
Qed.

(** X9. When the volume's data reads and has shape [(X, Y, Z)] (positive
    sizes), the three writes succeed and none of the three clipped projections is constant,
    [main] writes exactly the three images, to the three output paths in
    the order sagittal, coronal, axial; they are [Z x Y], [Z x X] and
    [Y x X] (width x height), and all their pixels are defined and in
    [[0, 255]]. *)
Theorem main_images_well_formed (output_folder filepath filename : string) (p : Q)
    (invert_image : bool) (nf : nifti) (ok : string -> bool) (X Y Z : nat) :
  check_nifti_dimension (nifti_shape nf) = true -> nifti_fdata_error nf = None ->
  shape3b (nifti_fdata nf) X Y Z = true -> (0 < X)%nat -> (0 < Y)%nat -> (0 < Z)%nat ->
  forallb ok (mips_paths output_folder filename) = true ->
  (let '(sg, cr, ax) := get_image_slices_data (nifti_fdata nf) in
   Forall (fun P => amin_all (nd_data (fst (set_min_max_threshold_value (mk_ndarray P true) p)))
                    < amax_all (nd_data (fst (set_min_max_threshold_value (mk_ndarray P true) p))))
     [sg; cr; ax]) ->
  let items := saved_items (main output_folder filepath filename p invert_image (inl nf) ok) in
  map fst items = mips_paths output_folder filename /\
  map (fun it => (im_w (snd it), im_h (snd it))) items = [(Z, Y); (Z, X); (Y, X)] /\
  (forall path img, In (path, img) items ->
     forall x y, (x < im_w img)%nat -> (y < im_h img)%nat ->
       exists z, pixel img x y = Some z /\ (0 <= z <= 255)%Z).
Proof.
  intros Hc Hfd Hs HX HY HZ Hall Hnc items.
  pose proof (get_image_slices_data_np_ok _ X Y Z Hs HX HY HZ) as Gnp.
  destruct (amax_axis0_spec _ X Y Z HX HY HZ Hs) as [S0 _].
  destruct (amax_axis1_spec _ X Y Z HX HY HZ Hs) as [S1 _].
  destruct (amax_axis2_spec _ X Y Z HX HY HZ Hs) as [S2 _].
  destruct (get_image_slices_data (nifti_fdata nf)) as [[sg cr] ax] eqn:G.
  pose proof G as G'; unfold get_image_slices_data in G'; injection G' as E0 E1 E2.
  rewrite E0 in S0; rewrite E1 in S1; rewrite E2 in S2.
  unfold items; rewrite (main_saved_items_ok _ _ _ p invert_image nf ok sg cr ax Hc Hfd Gnp Hall).
  apply Forall_cons_iff in Hnc; destruct Hnc as [N0 Hnc].
  apply Forall_cons_iff in Hnc; destruct Hnc as [N1 Hnc].
  apply Forall_cons_iff in Hnc; destruct Hnc as [N2 _].
  destruct (process_mips_pixels_gen (mk_ndarray sg true) p invert_image Y Z S0 HY N0)
    as (W0 & T0 & P0).
  destruct (process_mips_pixels_gen (mk_ndarray cr true) p invert_image X Z S1 HX N1)
    as (W1 & T1 & P1).
  destruct (process_mips_pixels_gen (mk_ndarray ax true) p invert_image X Y S2 HX N2)
    as (W2 & T2 & P2).
  unfold mips_paths; cbn [combine map fst snd].
  split; [reflexivity|split].
  - rewrite W0, T0, W1, T1, W2, T2; reflexivity.
  - intros path img Hin x y Hx Hy; cbn [In] in Hin.
    destruct Hin as [Hin|[Hin|[Hin|[]]]]; injection Hin as _ <-.
    + apply P0; [rewrite <- W0|rewrite <- T0]; assumption.
    + apply P1; [rewrite <- W1|rewrite <- T1]; assumption.
    + apply P2; [rewrite <- W2|rewrite <- T2]; assumption.
Qed.

Lemma main_images_well_formed_witness :
  let nf := mk_nifti [PyInt 2; PyInt 3; PyInt 4]
              [[[1;5;2;0];[3;3;3;3];[0;9;1;1]]; [[4;1;7;2];[2;8;0;6];[5;5;5;5]]] None in
  (check_nifti_dimension (nifti_shape nf) = true /\ nifti_fdata_error nf = None /\
   shape3b (nifti_fdata nf) 2 3 4 = true /\ (0 < 2)%nat /\ (0 < 3)%nat /\ (0 < 4)%nat /\
   forallb (fun _ => true) (mips_paths "out" "a.nii") = true /\
   (let '(sg, cr, ax) := get_image_slices_data (nifti_fdata nf) in
    Forall (fun P => amin_all (nd_data (fst (set_min_max_threshold_value (mk_ndarray P true) (197 # 2))))
                     < amax_all (nd_data (fst (set_min_max_threshold_value (mk_ndarray P true) (197 # 2)))))
      [sg; cr; ax])) /\
  let items := saved_items (main "out" "in/a.nii" "a.nii" (197 # 2) true (inl nf) (fun _ => true)) in
  map fst items = mips_paths "out" "a.nii" /\
  map (fun it => (im_w (snd it), im_h (snd it))) items = [(4, 3); (4, 2); (3, 2)]%nat /\
  (forall path img, In (path, img) items ->
     forall x y, (x < im_w img)%nat -> (y < im_h img)%nat ->
       exists z, pixel img x y = Some z /\ (0 <= z <= 255)%Z).
Proof.
  intros nf.
  assert (Hc : check_nifti_dimension (nifti_shape nf) = true) by reflexivity.
  assert (Hs : shape3b (nifti_fdata nf) 2 3 4 = true) by reflexivity.
  assert (HX : (0 < 2)%nat) by lia.
  assert (HY : (0 < 3)%nat) by lia.
  assert (HZ : (0 < 4)%nat) by lia.
  assert (Hall : forallb (fun _ => true) (mips_paths "out" "a.nii") = true) by reflexivity.
  assert (Hnc : let '(sg, cr, ax) := get_image_slices_data (nifti_fdata nf) in
    Forall (fun P => amin_all (nd_data (fst (set_min_max_threshold_value (mk_ndarray P true) (197 # 2))))
                     < amax_all (nd_data (fst (set_min_max_threshold_value (mk_ndarray P true) (197 # 2)))))
      [sg; cr; ax]).
  { destruct (get_image_slices_data (nifti_fdata nf)) as [[sg cr] ax] eqn:G.
    vm_compute in G; injection G as <- <- <-.
    apply Forall_cons; [vm_compute; reflexivity|].
    apply Forall_cons; [vm_compute; reflexivity|].
    apply Forall_cons; [vm_compute; reflexivity|].
    apply Forall_nil. }
  assert (Hfd : nifti_fdata_error nf = None) by reflexivity.
  split; [repeat split; assumption|].
  exact (main_images_well_formed "out" "in/a.nii" "a.nii" (197 # 2) true nf
           (fun _ => true) 2 3 4 Hc Hfd Hs HX HY HZ Hall Hnc).
Defined.

(** ** [main] never writes a file twice *)

Lemma string_app_cancel_l (a b c : string) : a ++ b = a ++ c -> b = c.
Proof. induction a as [|x a IH]; simpl; [auto|intros H; injection H as H; auto]. Qed.

Lemma prefix_slash_stem (stem x y : string) :
  prefix "/" (stem ++ String "_" x) = prefix "/" (stem ++ String "_" y).
Proof.
  destruct stem as [|c s]; [reflexivity|].
  change (String c s ++ String "_" x) with (String c (s ++ String "_" x)).
  change (String c s ++ String "_" y) with (String c (s ++ String "_" y)).
  destruct (s ++ String "_" x), (s ++ String "_" y); reflexivity.
Qed.

Lemma path_join_file_name_inj (output_folder filename x y : string) :
  path_join output_folder (create_mips_file_name filename x)
  = path_join output_folder (create_mips_file_name filename y) -> x = y.
Proof.
  unfold create_mips_file_name, path_join.
  set (stem := hd "" (py_split filename ".nii")).
  change ("_" ++ x) with (String "_" x); change ("_" ++ y) with (String "_" y).
  rewrite (prefix_slash_stem stem x y).
  destruct (prefix "/" (stem ++ String "_" y)).
  - intros H; apply string_app_cancel_l in H; injection H as H; exact H.
  - destruct (String.eqb output_folder "" || ends_with_slash output_folder); intros H;
      apply string_app_cancel_l in H; [|injection H as H];
      apply string_app_cancel_l in H; injection H as H; exact H.
Qed.

Lemma mips_paths_nodup (output_folder filename : string) :
  NoDup (mips_paths output_folder filename).
Proof.
  unfold mips_paths.
  apply NoDup_cons; [|apply NoDup_cons; [|apply NoDup_cons; [|apply NoDup_nil]]];
    cbn [In]; intros H; repeat (destruct H as [H|H]; [apply path_join_file_name_inj in H; discriminate|]);
    exact H.
Qed.

Lemma take_ok_incl (ok : string -> bool) : forall ps p, In p (take_ok ok ps) -> In p ps.
Proof.
  induction ps as [|q t IH]; intros p; simpl; [tauto|].
  destruct (ok q); simpl; [intros [H|H]; auto|tauto].
Qed.

Lemma take_ok_nodup (ok : string -> bool) : forall ps, NoDup ps -> NoDup (take_ok ok ps).
Proof.
  induction ps as [|q t IH]; intros H; simpl; [constructor|].
  inversion H as [|? ? Hq Ht]; subst.
  destruct (ok q); [|constructor].
  constructor; [intros Hin; apply Hq, (take_ok_incl ok), Hin|apply IH, Ht].
Qed.

(** X10. A run of [main] never writes the same path twice, whatever the
    output folder and file name: the three output paths differ in their
    suffix, and [os.path.join] keeps the suffix. *)
Theorem main_no_overwrite (output_folder filepath filename : string) (p : Q)
    (invert_image : bool) (load : nifti + load_error) (ok : string -> bool) :
  NoDup (saved_paths (main output_folder filepath filename p invert_image load ok)).
Proof.
  rewrite main_saved_paths_eq.
  destruct load as [nf|detail]; [|constructor].
  destruct (check_nifti_dimension (nifti_shape nf)); [|constructor].
  destruct (nifti_fdata_error nf); [constructor|].
  destruct (get_image_slices_data_np (nifti_fdata nf)); [|constructor].
  apply take_ok_nodup, mips_paths_nodup.
Qed.
